(** * parse.py: the README enrichment script, embedded and verified

    The script reads README.md, turns every list item
    [- [name](url) - description] into a [Project] thread, looks up the
    date of the last commit of the GitHub repository behind the url and
    writes one table row per project.

    The embedding follows the source function by function:
    - [Re]: the fragment of Python's backtracking regular expressions the
      three patterns of the script use ([reu], [ret], [rex]);
    - [extract_repo], [get_cran_publication_date], [get_last_commit] and
      [Project.run], the worker side, run against an oracle that says what
      the GitHub client answers to each lookup;
    - the module body (parse loop, batch loop, result assembly), the main
      thread, as an exception-and-state monad over the pool of thread
      objects.

    Strings are Rocq strings: sequences of the code points below 256.
    Durations and clock readings are exact rationals (the script's floats
    are not rounded here). Of the [print] calls only what evaluating their
    arguments can raise is kept. The writing of the table itself is left
    out: the module body ends with the list of rows it hands to the
    DataFrame. *)

From Stdlib Require Import Bool Arith Lia List String Ascii ZArith QArith Qminmax Lqa.
Import ListNotations.
Local Close Scope Q_scope.
Local Open Scope string_scope.

(* ------------------------------------------------------------------ *)
(** ** Strings as the script uses them *)

(** [needle in hay] *)
Fixpoint contains (needle hay : string) : bool :=
  if prefix needle hay then true
  else match hay with
       | EmptyString => false
       | String _ hay' => contains needle hay'
       end.

(** [sep.join(l)] *)
Fixpoint join (sep : string) (l : list string) : string :=
  match l with
  | [] => ""
  | [x] => x
  | x :: l' => x ++ sep ++ join sep l'
  end.

Definition code (c : ascii) : nat := nat_of_ascii c.

Definition between (lo hi n : nat) : bool := ((lo <=? n) && (n <=? hi))%nat.

Definition newline : ascii := ascii_of_nat 10.

(* ------------------------------------------------------------------ *)
(** ** The regular expressions of [re], as far as the script needs them *)

Module Re.

(** What matches one character. *)
Inductive item :=
| Lit (c : ascii)            (* an ordinary character *)
| Any                        (* [.]: everything but a newline *)
| Class (p : ascii -> bool). (* [\w], [\s], [[...]] *)

Inductive node :=
| One (i : item)
| Star (i : item)            (* [i*], greedy *)
| Plus (i : item)            (* [i+], greedy *)
| Open (g : nat)             (* [(] of group g *)
| Close (g : nat)            (* [)] of group g *)
| Bol                        (* [^] *)
| Eol.                       (* [$] *)

Definition regex := list node.

(** [\w] on str patterns: letters, digits and the underscore, by the
    Unicode tables; below 256 these are the code points listed. *)
Definition word (c : ascii) : bool :=
  let n := code c in
  between 48 57 n || between 65 90 n || (n =? 95)%nat || between 97 122 n
  || (n =? 170)%nat || between 178 179 n || (n =? 181)%nat
  || between 185 186 n || between 188 190 n || between 192 214 n
  || between 216 246 n || between 248 255 n.

(** [\s]: Unicode white space below 256. *)
Definition space (c : ascii) : bool :=
  let n := code c in
  between 9 13 n || between 28 32 n || (n =? 133)%nat || (n =? 160)%nat.

Definition accepts (i : item) (c : ascii) : bool :=
  match i with
  | Lit c' => Ascii.eqb c' c
  | Any => negb (Ascii.eqb c newline)
  | Class p => p c
  end.

(** Group boundaries seen so far: the open ones with their start, the
    closed ones with their span. *)
Record marks := { opened : list (nat * nat); closed : list (nat * (nat * nat)) }.

Definition no_marks : marks := {| opened := []; closed := [] |}.

Fixpoint assoc {A} (g : nat) (l : list (nat * A)) : option A :=
  match l with
  | [] => None
  | (g', a) :: l' => if (g =? g')%nat then Some a else assoc g l'
  end.

Definition open_group (g pos : nat) (m : marks) : marks :=
  {| opened := (g, pos) :: opened m; closed := closed m |}.

Definition close_group (g pos : nat) (m : marks) : marks :=
  match assoc g (opened m) with
  | Some start => {| opened := opened m; closed := (g, (start, pos)) :: closed m |}
  | None => m
  end.

(** [$] without MULTILINE: the end of the string, or just before a
    newline that ends it. *)
Definition at_end (s : string) : bool :=
  match s with
  | EmptyString => true
  | String c EmptyString => Ascii.eqb c newline
  | _ => false
  end.

(** A greedy repetition: take one more character when the item accepts
    it and the rest then matches; otherwise give back and go on with
    what follows in the pattern. *)
Fixpoint greedy (i : item) (k : nat -> string -> marks -> option marks)
         (pos : nat) (s : string) (m : marks) : option marks :=
  match s with
  | String c s' =>
      if accepts i c then
        match greedy i k (S pos) s' m with
        | Some r => Some r
        | None => k pos s m
        end
      else k pos s m
  | EmptyString => k pos s m
  end.

(** The matcher: [r] against [s], which starts at index [pos] of the
    subject. *)
Fixpoint exec (r : regex) (pos : nat) (s : string) (m : marks) : option marks :=
  match r with
  | [] => Some m
  | One i :: r' =>
      match s with
      | String c s' => if accepts i c then exec r' (S pos) s' m else None
      | EmptyString => None
      end
  | Star i :: r' => greedy i (exec r') pos s m
  | Plus i :: r' =>
      match s with
      | String c s' => if accepts i c then greedy i (exec r') (S pos) s' m else None
      | EmptyString => None
      end
  | Open g :: r' => exec r' pos s (open_group g pos m)
  | Close g :: r' => exec r' pos s (close_group g pos m)
  | Bol :: r' => if (pos =? 0)%nat then exec r' pos s m else None
  | Eol :: r' => if at_end s then exec r' pos s m else None
  end.

(** A match object: the subject and the spans of the groups. *)
Record match_object := { subject : string; spans : list (nat * (nat * nat)) }.

(** [pattern.match(s)] *)
Definition rmatch (r : regex) (s : string) : option match_object :=
  match exec r 0 s no_marks with
  | Some m => Some {| subject := s; spans := closed m |}
  | None => None
  end.

(** [m.group(g)] for a group that took part in the match *)
Definition group (m : match_object) (g : nat) : string :=
  match assoc g (spans m) with
  | Some (b, e) => substring b (e - b) (subject m)
  | None => ""
  end.

(** The characters of [s], each matched literally. *)
Fixpoint lit (s : string) : regex :=
  match s with
  | EmptyString => []
  | String c s' => One (Lit c) :: lit s'
  end.

End Re.

(* ------------------------------------------------------------------ *)
(** ** extract_repo *)

Definition hyphen : ascii := "-"%char.
Definition dot : ascii := "."%char.

(** [[\w-]] *)
Definition owner_char (c : ascii) : bool := Re.word c || Ascii.eqb c hyphen.

(** [[-\w\.]] *)
Definition repo_char (c : ascii) : bool :=
  Ascii.eqb c hyphen || Re.word c || Ascii.eqb c dot.

(** The repository pattern, "^https://github.com/([\w-]+/[-\w\.]+)$": the
    dot of github.com is not escaped in the source, so it is the item [Any]. *)
Definition reu : Re.regex :=
  ([Re.Bol] ++ Re.lit "https://github" ++ [Re.One Re.Any] ++ Re.lit "com/"
   ++ [Re.Open 1; Re.Plus (Re.Class owner_char); Re.One (Re.Lit "/");
       Re.Plus (Re.Class repo_char); Re.Close 1; Re.Eol])%list.

Definition extract_repo (url : string) : string :=
  match Re.rmatch reu url with
  | Some m => Re.group m 1
  | None => ""
  end.

(** ** get_cran_publication_date *)

Definition get_cran_publication_date (package_url : string) : string :=
  if contains "cran.r-project.org" package_url then "1999-01-01" else "".

(* ------------------------------------------------------------------ *)
(** ** The worker side: what a [Project] thread does *)

(** What [rate_limit.core.reset] of line 50 comes to: that is for the
    client to say, the handler only computes with it. *)
Inductive reading :=
| Seconds (q : Q)  (* a number of seconds, which lines 51 to 53 compute with *)
| Datetime         (* a datetime, as PyGithub gives it: [reset_time - time.time()]
                      of line 51 raises TypeError *)
| NoCore.          (* the answer of [g.get_rate_limit()] has no attribute [core],
                      as with later PyGithub: line 50 raises AttributeError *)

(** What one pass through the [try] body of [get_last_commit] comes to
    ([g.get_repo], [r.get_commits], the date of [cs[0]]). *)
Inductive lookup :=
| Date (d : string)          (* no exception: the date, formatted %Y-%m-%d *)
| RateLimitExceeded (reset : reading) (now : Q)
                             (* RateLimitExceededException; the handler then reads
                                [reset] from g.get_rate_limit() and [now] from
                                time.time() *)
| GithubError (status : Z) (dict_data : bool)
                             (* any other GithubException; [dict_data] says whether
                                [e.data] is a dict, which [e.data.get] of line 66
                                needs *)
| OtherError.                (* any other Exception *)

(** The GitHub client as a worker sees it: the outcome of its k-th lookup. *)
Definition api := nat -> lookup.

(** What a worker does to the outside world. *)
Inductive event :=
| Lookup (repo : string)             (* one pass through the [try] body *)
| RateLimitQuery                     (* g.get_rate_limit() *)
| Sleep (seconds : Q).               (* time.sleep *)

(** The exceptions raised inside an [except] clause: no other clause of
    the [try] catches them, so they end [get_last_commit] and [run]. *)
Inductive fault :=
| TypeError
| AttributeError.

Inductive wres (A : Type) :=
| Done (a : A)
| Failed (e : fault).
Arguments Done {A} a.
Arguments Failed {A} e.

Record wstate := { calls : nat; trace : list event }.

Definition wstart : wstate := {| calls := 0; trace := [] |}.

Definition W (A : Type) : Type := wstate -> wres A * wstate.

Definition wret {A} (a : A) : W A := fun s => (Done a, s).

Definition wraise {A} (e : fault) : W A := fun s => (Failed e, s).

Definition wbind {A B} (c : W A) (k : A -> W B) : W B :=
  fun s => match c s with
           | (Done a, s') => k a s'
           | (Failed e, s') => (Failed e, s')
           end.

Declare Scope worker_scope.
Notation "x <- c ;; k" := (wbind c (fun x => k))
  (at level 61, c at next level, right associativity) : worker_scope.
Notation "c ;; k" := (wbind c (fun _ => k))
  (at level 61, right associativity) : worker_scope.
Local Open Scope worker_scope.

Definition emit (e : event) : W unit :=
  fun s => (Done tt, {| calls := calls s; trace := (trace s ++ [e])%list |}).

Definition sleep (seconds : Q) : W unit := emit (Sleep seconds).

Definition try_lookup (g : api) (repo : string) : W lookup :=
  fun s => (Done (g (calls s)),
            {| calls := S (calls s); trace := (trace s ++ [Lookup repo])%list |}).

(** [rate_limit.core.reset], and [reset_time - time.time()] with it. *)
Definition time_to_reset (reset : reading) (now : Q) : W Q :=
  match reset with
  | Seconds reset_time => wret (reset_time - now)%Q
  | Datetime => wraise TypeError
  | NoCore => wraise AttributeError
  end.

(** [e.data.get("message", "Unknown error")], for the message of line 66. *)
Definition message (dict_data : bool) : W unit :=
  if dict_data then wret tt else wraise AttributeError.

(** How one turn of a [for] loop ends. *)
Inductive turn (A : Type) :=
| Return (a : A)
| Continue.
Arguments Return {A} a.
Arguments Continue {A}.

Definition max_retries : nat := 3.
Definition base_delay : Z := 1.

(** The body of [for attempt in range(max_retries)]. *)
Definition attempt_body (g : api) (repo : string) (attempt : nat) : W (turn string) :=
  r <- try_lookup g repo ;;
  match r with
  | Date d => wret (Return d)
  | RateLimitExceeded reset now =>
      emit RateLimitQuery ;;
      to_reset <- time_to_reset reset now ;;
      let sleep_time := (to_reset + 10)%Q in
      sleep (Qmax sleep_time 60) ;;
      wret Continue
  | GithubError status dict_data =>
      if (status =? 404)%Z then wret (Return "")
      else if (status =? 403)%Z then
        let delay := (base_delay * 2 ^ Z.of_nat attempt)%Z in
        sleep (inject_Z delay) ;;
        wret Continue
      else
        message dict_data ;;
        wret (Return "")
  | OtherError => wret (Return "")
  end.

(** The [for] loop over the attempts still to come, and the [return '']
    behind it. *)
Fixpoint attempts (g : api) (repo : string) (todo : list nat) : W string :=
  match todo with
  | [] => wret ""
  | attempt :: todo' =>
      t <- attempt_body g repo attempt ;;
      match t with
      | Return d => wret d
      | Continue => attempts g repo todo'
      end
  end.

Definition truthy (s : string) : bool :=
  match s with
  | EmptyString => false
  | _ => true
  end.

Definition get_last_commit (g : api) (repo : string) : W string :=
  if negb (truthy repo) then wret ""
  else attempts g repo (seq 0 max_retries).

(** A row of the table: the dict [Project.run] stores in [self.regs]. *)
Record row := {
  project : string;
  section : string;
  last_commit : string;
  url : string;
  description : string;
  github : bool;
  cran : bool;
  repo : string
}.

(** [Project.run], for the match [m] of [rex] and the section the
    constructor got. It ends with the row it stores in [self.regs]; when
    [get_last_commit] raises, it stores nothing. *)
Definition run (g : api) (m : Re.match_object) (sec : string) : W row :=
  let is_github := contains "github.com" (Re.group m 2) in
  let is_cran := contains "cran.r-project.org" (Re.group m 2) in
  let repo := extract_repo (Re.group m 2) in
  sleep (1 # 10) ;;
  last_commit <-
    (if is_cran && negb (truthy repo)
     then wret (get_cran_publication_date (Re.group m 2))
     else get_last_commit g repo) ;;
  wret {| project := Re.group m 1;
          section := sec;
          last_commit := last_commit;
          url := Re.group m 2;
          description := Re.group m 3;
          github := is_github;
          cran := is_cran;
          repo := repo |}.

(** The lookups in a trace. *)
Definition is_lookup (e : event) : bool :=
  match e with
  | Lookup _ => true
  | _ => false
  end.

Definition lookups (t : list event) : nat := List.length (filter is_lookup t).

(** The sleeps in a trace, in seconds. *)
Fixpoint slept (t : list event) : list Q :=
  match t with
  | [] => []
  | Sleep seconds :: t' => seconds :: slept t'
  | _ :: t' => slept t'
  end.

(* ------------------------------------------------------------------ *)
(** ** The main thread: the module body *)

(** A [Thread] object is started at most once; the main thread learns
    that it has ended from [is_alive]. *)
Inductive tstate := Initial | Running | Finished.

(** A [Project] object. Lists of projects hold references: an object is
    known by its index in the pool. *)
Record thread := { p_match : Re.match_object; p_section : string; p_state : tstate }.

Inductive exn :=
| RuntimeError (msg : string)
| IndexError (msg : string)
| NoSuchObject.   (* a reference to no object; the module body never makes one *)

(** What the main thread does to the outside world. *)
Inductive mevent :=
| Started (id : nat)      (* a [p.start()] that went through *)
| Slept (seconds : Q).    (* time.sleep *)

Record mstate := { pool : list thread; rounds : nat; mlog : list mevent }.

Definition boot : mstate := {| pool := []; rounds := 0; mlog := [] |}.

Inductive outcome (A : Type) :=
| Normal (a : A)
| Raised (e : exn)
| Hung.            (* the wait loop did not end within the fuel *)
Arguments Normal {A} a.
Arguments Raised {A} e.
Arguments Hung {A}.

Definition M (A : Type) : Type := mstate -> outcome A * mstate.

Definition mret {A} (a : A) : M A := fun s => (Normal a, s).

Definition mbind {A B} (c : M A) (k : A -> M B) : M B :=
  fun s => match c s with
           | (Normal a, s') => k a s'
           | (Raised e, s') => (Raised e, s')
           | (Hung, s') => (Hung, s')
           end.

Definition raise {A} (e : exn) : M A := fun s => (Raised e, s).

Definition hang {A} : M A := fun s => (Hung, s).

Declare Scope main_scope.
Notation "x <- c ;; k" := (mbind c (fun x => k))
  (at level 61, c at next level, right associativity) : main_scope.
Notation "c ;; k" := (mbind c (fun _ => k))
  (at level 61, right associativity) : main_scope.
Local Open Scope main_scope.

Definition log (e : mevent) : M unit :=
  fun s => (Normal tt,
            {| pool := pool s; rounds := rounds s; mlog := (mlog s ++ [e])%list |}).

Definition msleep (seconds : Q) : M unit := log (Slept seconds).

Definition tick : M unit :=
  fun s => (Normal tt,
            {| pool := pool s; rounds := S (rounds s); mlog := mlog s |}).

Fixpoint set_state (id : nat) (st : tstate) (l : list thread) : list thread :=
  match l, id with
  | [], _ => []
  | p :: l', O =>
      {| p_match := p_match p; p_section := p_section p; p_state := st |} :: l'
  | p :: l', S id' => p :: set_state id' st l'
  end.

(** [Project(m, section)] *)
Definition new_project (m : Re.match_object) (sec : string) : M nat :=
  fun s => (Normal (List.length (pool s)),
            {| pool := (pool s
                        ++ [{| p_match := m; p_section := sec; p_state := Initial |}])%list;
               rounds := rounds s; mlog := mlog s |}).

(** [p.start()]: a thread that was started before raises. *)
Definition start (id : nat) : M unit :=
  fun s => match nth_error (pool s) id with
           | Some p =>
               match p_state p with
               | Initial =>
                   (Normal tt,
                    {| pool := set_state id Running (pool s); rounds := rounds s;
                       mlog := (mlog s ++ [Started id])%list |})
               | _ => (Raised (RuntimeError "threads can only be started once"), s)
               end
           | None => (Raised NoSuchObject, s)
           end.

(** The scheduler: [sched t id] says whether worker [id] has ended when
    the main thread wakes up from the t-th sleep of a wait loop. *)
Definition schedule := nat -> nat -> bool.

(** [p.is_alive()] *)
Definition is_alive (sched : schedule) (id : nat) : M bool :=
  fun s => match nth_error (pool s) id with
           | Some p =>
               match p_state p with
               | Running =>
                   if sched (rounds s) id
                   then (Normal false,
                         {| pool := set_state id Finished (pool s); rounds := rounds s;
                            mlog := mlog s |})
                   else (Normal true, s)
               | _ => (Normal false, s)
               end
           | None => (Raised NoSuchObject, s)
           end.

(** [all(not p.is_alive() for p in batch)] *)
Fixpoint all_not_alive (sched : schedule) (batch : list nat) : M bool :=
  match batch with
  | [] => mret true
  | p :: batch' =>
      a <- is_alive sched p ;;
      if negb a then all_not_alive sched batch' else mret false
  end.

(** [while not batch_complete: ...] *)
Fixpoint wait (fuel : nat) (sched : schedule) (batch : list nat) : M unit :=
  match fuel with
  | O => hang
  | S fuel' =>
      msleep 1 ;;
      tick ;;
      batch_complete <- all_not_alive sched batch ;;
      if batch_complete then mret tt else wait fuel' sched batch
  end.

(** [for p in batch: p.start()] *)
Fixpoint start_all (batch : list nat) : M unit :=
  match batch with
  | [] => mret tt
  | p :: batch' => start p ;; start_all batch'
  end.

Definition batch_size : nat := 10.

(** [range(0, stop, step)] *)
Definition range_step (stop step : nat) : list nat :=
  map (fun k => k * step) (seq 0 ((stop + step - 1) / step)).

(** The batch loop, over the values of [i] still to come. *)
Fixpoint batches (fuel : nat) (sched : schedule) (projects : list nat)
         (todo : list nat) : M unit :=
  match todo with
  | [] => mret tt
  | i :: todo' =>
      let batch := firstn batch_size (skipn i projects) in
      start_all batch ;;
      wait fuel sched batch ;;
      (if (i + batch_size <? List.length projects)%nat then msleep 2 else mret tt) ;;
      batches fuel sched projects todo'
  end.

(** The heading pattern: [^], group 1 = [#+], a blank, group 2 = [.*], [$]. *)
Definition ret : Re.regex :=
  [Re.Bol; Re.Open 1; Re.Plus (Re.Lit "#"); Re.Close 1; Re.One (Re.Lit " ");
   Re.Open 2; Re.Star Re.Any; Re.Close 2; Re.Eol].

(** The list item pattern: [^\s*- \[], group 1 = [.*], [\]\(], group 2 = [.*],
    [\) - ], group 3 = [.*], [$]. *)
Definition rex : Re.regex :=
  ([Re.Bol; Re.Star (Re.Class Re.space)] ++ Re.lit "- ["
   ++ [Re.Open 1; Re.Star Re.Any; Re.Close 1] ++ Re.lit "]("
   ++ [Re.Open 2; Re.Star Re.Any; Re.Close 2] ++ Re.lit ") - "
   ++ [Re.Open 3; Re.Star Re.Any; Re.Close 3; Re.Eol])%list.

(** The variables of the parse loop. *)
Record parser := { m_titles : list string; last_head_level : nat; projects : list nat }.

(** [m_titles.pop()] *)
Definition pop (l : list string) : M (list string) :=
  match l with
  | [] => raise (IndexError "pop from empty list")
  | _ => mret (removelast l)
  end.

Fixpoint pop_times (n : nat) (l : list string) : M (list string) :=
  match n with
  | O => mret l
  | S n' => l' <- pop l ;; pop_times n' l'
  end.

(** The body of [for line in f]. *)
Definition parse_line (line : string) (ps : parser) : M parser :=
  match Re.rmatch rex line with
  | Some m =>
      p <- new_project m (join " > " (tl (m_titles ps))) ;;
      start p ;;
      mret {| m_titles := m_titles ps; last_head_level := last_head_level ps;
              projects := (projects ps ++ [p])%list |}
  | None =>
      match Re.rmatch ret line with
      | Some m =>
          let hrs := Re.group m 1 in
          titles <-
            (if (last_head_level ps <? String.length hrs)%nat
             then mret (m_titles ps ++ [Re.group m 2])%list
             else
               t <- pop_times (last_head_level ps - String.length hrs + 1) (m_titles ps) ;;
               mret (t ++ [Re.group m 2])%list) ;;
          mret {| m_titles := titles; last_head_level := String.length hrs;
                  projects := projects ps |}
      | None => mret ps
      end
  end.

Fixpoint parse (lines : list string) (ps : parser) : M parser :=
  match lines with
  | [] => mret ps
  | line :: lines' => ps' <- parse_line line ps ;; parse lines' ps'
  end.

(** What the worker of thread [p] has put in [self.regs] when it has come
    to its end: the row of line 100 or, when [run] raised on the way,
    nothing. *)
Definition stored (a : api) (p : thread) : option row :=
  match fst (run a (p_match p) (p_section p) wstart) with
  | Done r => Some r
  | Failed _ => None
  end.

(** [p.regs]. The worker writes it, and only at the end of [run]: it is
    None for a thread that was not started, for one whose worker is still
    on its way, and for one whose [run] raised. Whether the worker of a
    running thread has come to its end is for the schedule to say, whether
    the main thread has polled the thread or not. Worker [id] talks to the
    client through [apis id]. *)
Definition regs (sched : schedule) (apis : nat -> api) (id : nat) : M (option row) :=
  fun s => match nth_error (pool s) id with
           | Some p =>
               match p_state p with
               | Initial => (Normal None, s)
               | Running =>
                   (Normal (if sched (rounds s) id then stored (apis id) p else None), s)
               | Finished => (Normal (stored (apis id) p), s)
               end
           | None => (Raised NoSuchObject, s)
           end.

(** [[p.regs for p in projects]] *)
Fixpoint all_regs (sched : schedule) (apis : nat -> api) (ps : list nat)
  : M (list (option row)) :=
  match ps with
  | [] => mret []
  | p :: ps' => r <- regs sched apis p ;; rs <- all_regs sched apis ps' ;; mret (r :: rs)
  end.

(** The module body on the lines of README.md; the result is what goes
    to the DataFrame and from there to site/projects.csv. *)
Definition main (fuel : nat) (sched : schedule) (apis : nat -> api)
           (readme : list string) : M (list (option row)) :=
  ps <- parse readme {| m_titles := []; last_head_level := 0; projects := [] |} ;;
  batches fuel sched (projects ps) (range_step (List.length (projects ps)) batch_size) ;;
  all_regs sched apis (projects ps).

(* ------------------------------------------------------------------ *)
(** ** Notions the statements below use *)

(** The longest prefix of [s] made of characters in [p], and what is left. *)
Fixpoint take_while (p : ascii -> bool) (s : string) : string :=
  match s with
  | String c s' => if p c then String c (take_while p s') else ""
  | EmptyString => ""
  end.

Fixpoint drop_while (p : ascii -> bool) (s : string) : string :=
  match s with
  | String c s' => if p c then drop_while p s' else s
  | EmptyString => ""
  end.

Fixpoint all_chars (p : ascii -> bool) (s : string) : bool :=
  match s with
  | String c s' => p c && all_chars p s'
  | EmptyString => true
  end.

(** [s] without its prefix [p], when it has it. *)
Fixpoint strip (p s : string) : option string :=
  match p, s with
  | EmptyString, _ => Some s
  | String a p', String b s' => if Ascii.eqb a b then strip p' s' else None
  | String _ _, EmptyString => None
  end.

(** What is left of [reu] behind the 19 characters of the host part. *)
Definition reu_path : Re.regex :=
  [Re.Open 1; Re.Plus (Re.Class owner_char); Re.One (Re.Lit "/");
   Re.Plus (Re.Class repo_char); Re.Close 1; Re.Eol].

(** An owner and a repository name as the repository pattern takes them. *)
Definition well_formed (owner name : string) : Prop :=
  truthy owner = true /\ all_chars owner_char owner = true
  /\ truthy name = true /\ all_chars repo_char name = true.

(** The match objects of some list items, as [rex] gives them: with a
    repository, with a registry url, with neither, and three GitHub urls
    that have a further path segment, a query string, a trailing slash. *)
Definition item_A : Re.match_object :=
  {| Re.subject := "- [A](https://github.com/a/a) - first";
     Re.spans := [(3, (32, 37)); (2, (6, 28)); (1, (3, 4))] |}.

Definition item_B : Re.match_object :=
  {| Re.subject := "- [B](https://cran.r-project.org/p) - second";
     Re.spans := [(3, (38, 44)); (2, (6, 34)); (1, (3, 4))] |}.

Definition item_C : Re.match_object :=
  {| Re.subject := "- [C](ftp://x) - third";
     Re.spans := [(3, (17, 22)); (2, (6, 13)); (1, (3, 4))] |}.

Definition item_tree : Re.match_object :=
  {| Re.subject := "- [T](https://github.com/a/b/tree/main) - t";
     Re.spans := [(3, (42, 43)); (2, (6, 38)); (1, (3, 4))] |}.

Definition item_query : Re.match_object :=
  {| Re.subject := "- [Q](https://github.com/a/b?tab=readme) - q";
     Re.spans := [(3, (43, 44)); (2, (6, 39)); (1, (3, 4))] |}.

Definition item_slash : Re.match_object :=
  {| Re.subject := "- [S](https://github.com/a/b/) - s";
     Re.spans := [(3, (33, 34)); (2, (6, 29)); (1, (3, 4))] |}.

(** The list items of a README, in order: the entries the script works on. *)
Fixpoint entries (readme : list string) : list Re.match_object :=
  match readme with
  | [] => []
  | line :: readme' =>
      match Re.rmatch rex line with
      | Some m => m :: entries readme'
      | None => entries readme'
      end
  end.

Definition is_start (e : mevent) : bool :=
  match e with
  | Started _ => true
  | Slept _ => false
  end.

(** Every thread object there is has been started and is not known to
    have ended. *)
Definition all_running (s : mstate) : Prop :=
  Forall (fun p => p_state p = Running) (pool s).

Definition nl : string := String newline "".

(** The README of the end-to-end example: three entries under a heading. *)
Definition readme_abc : list string :=
  ["# Catalog" ++ nl; "## Python" ++ nl; nl;
   "- [A](https://github.com/a/a) - first" ++ nl;
   "- [B](https://cran.r-project.org/p) - second" ++ nl;
   "- [C](ftp://x) - third" ++ nl].

(** A README of eleven entries: one more than a batch holds. *)
Definition readme_eleven : list string :=
  repeat ("- [P](https://github.com/acme/widget) - a project" ++ nl) 11.

(** A pool of [n] thread objects none of which has been started, as the
    batch loop would need them. *)
Definition fresh_pool (n : nat) : mstate :=
  {| pool := repeat {| p_match := item_A; p_section := ""; p_state := Initial |} n;
     rounds := 0; mlog := [] |}.

(** The answers after which the loop of [get_last_commit] goes on: a rate
    limit whose reset time is a number, and status 403. *)
Definition transient (l : lookup) : bool :=
  match l with
  | RateLimitExceeded (Seconds _) _ => true
  | GithubError status _ => (status =? 403)%Z
  | _ => false
  end.

(** The exception a reset time that is no number makes the handler raise. *)
Definition unreadable (reset : reading) : option fault :=
  match reset with
  | Seconds _ => None
  | Datetime => Some TypeError
  | NoCore => Some AttributeError
  end.

(** A client none of whose rate limits comes with a number of seconds
    for the reset time: PyGithub, whose reset time is a datetime. *)
Definition datetime_client (g : api) : Prop :=
  forall k reset now, g k = RateLimitExceeded reset now -> unreadable reset <> None.

(** What [get_last_commit] ends with on an answer that is not transient:
    the date, the empty string, or the exception out of the handler. *)
Definition answer (l : lookup) : wres string :=
  match l with
  | Date d => Done d
  | RateLimitExceeded reset _ =>
      match unreadable reset with
      | Some e => Failed e
      | None => Done ""
      end
  | GithubError status dict_data =>
      if ((status =? 404) || (status =? 403) || dict_data)%Z
      then Done ""
      else Failed AttributeError
  | OtherError => Done ""
  end.

(** The first of the lookups [k], ..., [k + n - 1] whose answer is not
    transient. *)
Fixpoint first_final (g : api) (k n : nat) : option nat :=
  match n with
  | O => None
  | S n' => if transient (g k) then first_final g (S k) n' else Some k
  end.

(** What the worker does about the answer to its lookup in turn [attempt]. *)
Definition reaction (attempt : nat) (l : lookup) : list event :=
  match l with
  | RateLimitExceeded (Seconds reset_time) now =>
      [RateLimitQuery; Sleep (Qmax ((reset_time - now) + 10) 60)]
  | RateLimitExceeded _ _ => [RateLimitQuery]
  | GithubError status _ =>
      if (status =? 403)%Z
      then [Sleep (inject_Z (base_delay * 2 ^ Z.of_nat attempt))]
      else []
  | _ => []
  end.

(** The row [run] stores, for the date [d]. *)
Definition row_of (m : Re.match_object) (sec d : string) : row :=
  {| project := Re.group m 1;
     section := sec;
     last_commit := d;
     url := Re.group m 2;
     description := Re.group m 3;
     github := contains "github.com" (Re.group m 2);
     cran := contains "cran.r-project.org" (Re.group m 2);
     repo := extract_repo (Re.group m 2) |}.

Definition wres_map {A B : Type} (f : A -> B) (r : wres A) : wres B :=
  match r with
  | Done a => Done (f a)
  | Failed e => Failed e
  end.

(** A list item whose url has a repository and contains the registry host. *)
Definition item_mirror : Re.match_object :=
  {| Re.subject := "- [M](https://github.com/cran/cran.r-project.org) - mirror";
     Re.spans := [(3, (52, 58)); (2, (6, 48)); (1, (3, 4))] |}.

(** [n] times the character #. *)
Fixpoint hashes (n : nat) : string :=
  match n with
  | O => ""
  | S n' => String "#" (hashes n')
  end.

(** The level of a heading line; None for a list item and for any other
    line. *)
Definition heading_level (line : string) : option nat :=
  match Re.rmatch rex line with
  | Some _ => None
  | None =>
      match Re.rmatch ret line with
      | Some m => Some (String.length (Re.group m 1))
      | None => None
      end
  end.

(** No heading lies more than one level below the heading before it
    ([last] is the level of that one, 0 at the top of the file). *)
Fixpoint nested (last : nat) (lines : list string) : bool :=
  match lines with
  | [] => true
  | line :: lines' =>
      match heading_level line with
      | Some h => (h <=? S last)%nat && nested h lines'
      | None => nested last lines'
      end
  end.

(** The variables of the parse loop before the first line. *)
Definition parse_start : parser :=
  {| m_titles := []; last_head_level := 0; projects := [] |}.

(** The parts of [rex] behind its three literal texts. *)
Definition rex_desc : Re.regex := [Re.Open 3; Re.Star Re.Any; Re.Close 3; Re.Eol].

Definition rex_url : Re.regex :=
  (Re.Open 2 :: Re.Star Re.Any :: Re.Close 2 :: Re.lit ") - " ++ rex_desc)%list.

Definition rex_name : Re.regex :=
  (Re.Open 1 :: Re.Star Re.Any :: Re.Close 1 :: Re.lit "](" ++ rex_url)%list.

(** Thread [id] is there and is not running: it was never started, or it
    is known to have ended. *)
Definition settled (s : mstate) (id : nat) : Prop :=
  exists p, nth_error (pool s) id = Some p /\ p_state p <> Running.

(** A thread object with its state changed. *)
Definition with_state (st : tstate) (p : thread) : thread :=
  {| p_match := p_match p; p_section := p_section p; p_state := st |}.

(** The threads [i], ..., [i + j - 1] of a pool put in state [st]. *)
Fixpoint set_range (st : tstate) (i j : nat) (l : list thread) : list thread :=
  match j with
  | O => l
  | S j' => set_range st (S i) j' (set_state i st l)
  end.

(** What the main thread does for the batch that starts at index [i] of
    [n] projects, when the workers end within a second: the starts, one
    sleep in the wait loop, and the pause when another batch follows. *)
Definition batch_log (n i : nat) : list mevent :=
  (map Started (seq i (Nat.min batch_size (n - i)))
   ++ [Slept 1] ++ (if (i + batch_size <? n)%nat then [Slept 2] else []))%list.

(* ================================================================== *)
(** * Properties *)

(** ** The matcher and [extract_repo] *)

Lemma take_drop (p : ascii -> bool) (s : string) :
  take_while p s ++ drop_while p s = s.
Proof.
  induction s as [| c s IH]; cbn; [reflexivity |].
  destruct (p c); cbn; [now rewrite IH | reflexivity].
Qed.

Lemma all_chars_take (p : ascii -> bool) (s : string) :
  all_chars p (take_while p s) = true.
Proof.
  induction s as [| c s IH]; cbn; [reflexivity |].
  destruct (p c) eqn:E; cbn; [now rewrite E | reflexivity].
Qed.

Lemma take_while_all (p : ascii -> bool) (a : string) :
  all_chars p a = true -> take_while p a = a /\ drop_while p a = "".
Proof.
  induction a as [| c a IH]; cbn; [auto |].
  intros H. apply andb_prop in H. destruct H as [Hc Ha]. rewrite Hc.
  destruct (IH Ha) as [E1 E2]. now rewrite E1, E2.
Qed.

Lemma take_while_stop (p : ascii -> bool) (a : string) (c : ascii) (b : string) :
  all_chars p a = true -> p c = false ->
  take_while p (a ++ String c b) = a /\ drop_while p (a ++ String c b) = String c b.
Proof.
  intros Ha Hc. induction a as [| x a IH]; cbn.
  - now rewrite Hc.
  - cbn in Ha. apply andb_prop in Ha. destruct Ha as [Hx Ha]. rewrite Hx.
    destruct (IH Ha) as [E1 E2]. now rewrite E1, E2.
Qed.

Lemma length_append (a b : string) :
  String.length (a ++ b) = String.length a + String.length b.
Proof. induction a as [| c a IH]; cbn; [reflexivity | now rewrite IH]. Qed.

Lemma append_assoc (a b c : string) : (a ++ b) ++ c = a ++ (b ++ c).
Proof. induction a as [| x a IH]; cbn; [reflexivity | now rewrite IH]. Qed.

Lemma substring_append (a b c : string) :
  substring (String.length a) (String.length b) (a ++ b ++ c) = b.
Proof.
  induction a as [| x a IH]; cbn.
  - induction b as [| y b IHb]; cbn.
    + destruct c; reflexivity.
    + now rewrite IHb.
  - exact IH.
Qed.

Lemma strip_some (p s s' : string) : strip p s = Some s' <-> s = p ++ s'.
Proof.
  revert s. induction p as [| a p IH]; intros s; cbn.
  - split; [intros [= ->]; reflexivity | intros ->; reflexivity].
  - destruct s as [| b s]; [split; discriminate |].
    destruct (Ascii.eqb_spec a b) as [-> | N].
    + rewrite IH. split; [intros ->; reflexivity | intros [= ->]; reflexivity].
    + split; [discriminate | intros [= E _]; congruence].
Qed.

Lemma strip_prefix (p s s' : string) : strip p s = Some s' -> prefix p s = true.
Proof.
  revert s. induction p as [| a p IH]; intros s; cbn.
  - destruct s; reflexivity.
  - destruct s as [| b s]; [discriminate |].
    destruct (Ascii.eqb_spec a b) as [-> | N]; [| discriminate].
    intros H. cbn. destruct (ascii_dec b b) as [_ | N]; [| now destruct N].
    now apply IH.
Qed.

Module ReFacts.
Import Re.

(** The equations of [exec], one node at a time. *)
Lemma exec_open (g : nat) (r : regex) (pos : nat) (s : string) (m : marks) :
  exec (Open g :: r) pos s m = exec r pos s (open_group g pos m).
Proof. reflexivity. Qed.

Lemma exec_close (g : nat) (r : regex) (pos : nat) (s : string) (m : marks) :
  exec (Close g :: r) pos s m = exec r pos s (close_group g pos m).
Proof. reflexivity. Qed.

Lemma exec_one (i : item) (r : regex) (pos : nat) (s : string) (m : marks) :
  exec (One i :: r) pos s m =
  match s with
  | String c s' => if accepts i c then exec r (S pos) s' m else None
  | EmptyString => None
  end.
Proof. reflexivity. Qed.

Lemma exec_bol (r : regex) (pos : nat) (s : string) (m : marks) :
  exec (Bol :: r) pos s m = if (pos =? 0)%nat then exec r pos s m else None.
Proof. reflexivity. Qed.

Lemma exec_eol (r : regex) (pos : nat) (s : string) (m : marks) :
  exec (Eol :: r) pos s m = if at_end s then exec r pos s m else None.
Proof. reflexivity. Qed.

(** Literal text at the head of a pattern eats exactly that text. *)
Lemma exec_lit (p : string) (r : regex) (pos : nat) (s : string) (m : marks) :
  exec (lit p ++ r)%list pos s m =
  match strip p s with
  | Some s' => exec r (pos + String.length p) s' m
  | None => None
  end.
Proof.
  revert pos s. induction p as [| a p IH]; intros pos s; cbn.
  - now rewrite Nat.add_0_r.
  - destruct s as [| b s]; [reflexivity |].
    destruct (Ascii.eqb a b); [| reflexivity].
    rewrite IH. now rewrite Nat.add_succ_r.
Qed.

(** When what follows in the pattern cannot start on a character of the
    repeated item, the repetition never gives a character back: it takes
    the longest run. *)
Lemma greedy_run (i : item) (k : nat -> string -> marks -> option marks) :
  (forall c s pos m, accepts i c = true -> k pos (String c s) m = None) ->
  forall s pos m,
    greedy i k pos s m =
    k (pos + String.length (take_while (accepts i) s)) (drop_while (accepts i) s) m.
Proof.
  intros stops. induction s as [| c s IH]; intros pos m; cbn.
  - now rewrite Nat.add_0_r.
  - destruct (accepts i c) eqn:E; cbn.
    + rewrite IH, Nat.add_succ_r. cbn.
      destruct (k (S (pos + String.length (take_while (accepts i) s)))
                  (drop_while (accepts i) s) m); [reflexivity |].
      now apply stops.
    + now rewrite Nat.add_0_r.
Qed.

Lemma exec_plus (i : item) (r : regex) :
  (forall c s pos m, accepts i c = true -> exec r pos (String c s) m = None) ->
  forall s pos m,
    exec (Plus i :: r) pos s m =
    if truthy (take_while (accepts i) s)
    then exec r (pos + String.length (take_while (accepts i) s))
              (drop_while (accepts i) s) m
    else None.
Proof.
  intros stops s pos m. destruct s as [| c s]; cbn; [reflexivity |].
  destruct (accepts i c) eqn:E; cbn; [| reflexivity].
  rewrite (greedy_run i (exec r) stops). now rewrite Nat.add_succ_r.
Qed.

End ReFacts.

Lemma owner_char_not_slash (c : ascii) :
  owner_char c = true -> Ascii.eqb "/" c = false.
Proof.
  intros H. destruct (Ascii.eqb_spec "/"%char c) as [<- | N]; [| reflexivity].
  vm_compute in H. discriminate.
Qed.

Lemma repo_char_not_newline (c : ascii) :
  repo_char c = true -> Ascii.eqb c newline = false.
Proof.
  intros H. destruct (Ascii.eqb_spec c newline) as [-> | N]; [| reflexivity].
  vm_compute in H. discriminate.
Qed.

(** [reu_path] at index [pos]: the longest run of owner characters, a
    slash, the longest run of repository characters, the end; group 1
    spans the three. *)
Lemma exec_reu_path (pos : nat) (s : string) :
  Re.exec reu_path pos s Re.no_marks =
  let owner := take_while owner_char s in
  match drop_while owner_char s with
  | String c s' =>
      let name := take_while repo_char s' in
      if truthy owner && Ascii.eqb "/" c && truthy name
         && Re.at_end (drop_while repo_char s')
      then Some {| Re.opened := [(1, pos)];
                   Re.closed := [(1, (pos, S (pos + String.length owner)
                                           + String.length name))] |}
      else None
  | EmptyString => None
  end.
Proof.
  unfold reu_path. rewrite ReFacts.exec_open, ReFacts.exec_plus.
  2:{ intros c s0 p0 m0 H. rewrite ReFacts.exec_one. cbn [Re.accepts] in *.
      now rewrite (owner_char_not_slash c H). }
  change (Re.accepts (Re.Class owner_char)) with owner_char. cbv zeta.
  destruct (truthy (take_while owner_char s)); cbn [andb];
    [| destruct (drop_while owner_char s); reflexivity].
  rewrite ReFacts.exec_one.
  destruct (drop_while owner_char s) as [| c s']; [reflexivity |].
  cbn [Re.accepts]. destruct (Ascii.eqb "/" c); cbn [andb]; [| reflexivity].
  rewrite ReFacts.exec_plus.
  2:{ intros c0 s0 p0 m0 H. rewrite ReFacts.exec_close, ReFacts.exec_eol.
      cbn [Re.accepts Re.at_end] in *.
      destruct s0; [now rewrite (repo_char_not_newline c0 H) | reflexivity]. }
  change (Re.accepts (Re.Class repo_char)) with repo_char.
  destruct (truthy (take_while repo_char s')); cbn [andb]; [| reflexivity].
  rewrite ReFacts.exec_close, ReFacts.exec_eol.
  destruct (Re.at_end (drop_while repo_char s')); [| reflexivity].
  reflexivity.
Qed.

(** [reu] on a url: the text https://github, one character that is not a
    newline, the text com/, and then [reu_path] from index 19 on. *)
Lemma exec_reu (url : string) :
  Re.exec reu 0 url Re.no_marks =
  match strip "https://github" url with
  | Some (String c s2) =>
      if negb (Ascii.eqb c newline) then
        match strip "com/" s2 with
        | Some s3 => Re.exec reu_path 19 s3 Re.no_marks
        | None => None
        end
      else None
  | _ => None
  end.
Proof.
  change reu with (Re.Bol :: Re.lit "https://github"
                     ++ Re.One Re.Any :: Re.lit "com/" ++ reu_path)%list.
  rewrite ReFacts.exec_bol. cbn [Nat.eqb]. rewrite ReFacts.exec_lit.
  destruct (strip "https://github" url) as [[| c s2] |]; [reflexivity | | reflexivity].
  rewrite ReFacts.exec_one. cbn [Re.accepts].
  destruct (negb (Ascii.eqb c newline)); [| reflexivity].
  rewrite ReFacts.exec_lit. reflexivity.
Qed.

(** [extract_repo] without the matcher. *)
Lemma extract_repo_unfold (url : string) :
  extract_repo url =
  match strip "https://github" url with
  | Some (String c s2) =>
      if negb (Ascii.eqb c newline) then
        match strip "com/" s2 with
        | Some s3 =>
            let owner := take_while owner_char s3 in
            match drop_while owner_char s3 with
            | String c' s' =>
                let name := take_while repo_char s' in
                if truthy owner && Ascii.eqb "/" c' && truthy name
                   && Re.at_end (drop_while repo_char s')
                then owner ++ String c' name
                else ""
            | EmptyString => ""
            end
        | None => ""
        end
      else ""
  | _ => ""
  end.
Proof.
  unfold extract_repo, Re.rmatch. rewrite exec_reu.
  destruct (strip "https://github" url) as [[| c s2] |] eqn:E1; try reflexivity.
  destruct (negb (Ascii.eqb c newline)); [| reflexivity].
  destruct (strip "com/" s2) as [s3 |] eqn:E2; [| reflexivity].
  rewrite exec_reu_path. cbv zeta.
  destruct (drop_while owner_char s3) as [| c' s'] eqn:E3; [reflexivity |].
  destruct (truthy (take_while owner_char s3) && Ascii.eqb "/" c'
            && truthy (take_while repo_char s')
            && Re.at_end (drop_while repo_char s')); [| reflexivity].
  unfold Re.group. cbn [Re.spans Re.closed Re.assoc Nat.eqb Re.subject].
  apply strip_some in E1. apply strip_some in E2. subst url s2.
  pose proof (take_drop owner_char s3) as Ho. rewrite E3 in Ho.
  pose proof (take_drop repo_char s') as Hn.
  set (owner := take_while owner_char s3) in *.
  set (name := take_while repo_char s') in *.
  set (rest := drop_while repo_char s') in *.
  replace (S (19 + String.length owner) + String.length name - 19)
    with (String.length (owner ++ String c' name))
    by (rewrite length_append; cbn [String.length]; lia).
  replace ("https://github" ++ String c ("com/" ++ s3))
    with (("https://github" ++ String c "com/") ++ (owner ++ String c' name) ++ rest).
  - apply (substring_append ("https://github" ++ String c "com/")).
  - rewrite <- Ho, <- Hn. cbn. rewrite append_assoc. reflexivity.
Qed.

Lemma append_nil_r (s : string) : s ++ "" = s.
Proof. induction s as [| c s IH]; cbn; [reflexivity | now rewrite IH]. Qed.

Lemma at_end_cases (s : string) : Re.at_end s = true <-> s = "" \/ s = nl.
Proof.
  destruct s as [| c [| d s]]; cbn; split; auto; try discriminate.
  - intros H. right. apply Ascii.eqb_eq in H. now subst c.
  - intros [H | H]; [discriminate |]. injection H as ->. reflexivity.
  - intros [H | H]; discriminate.
Qed.

(** [extract_repo] on a url with the host part and an owner in place: the
    longest run of repository characters behind the slash is the name, and
    it must reach the end of the url. *)
Lemma extract_repo_on (c : ascii) (owner rest : string) :
  Ascii.eqb c newline = false ->
  truthy owner = true -> all_chars owner_char owner = true ->
  extract_repo ("https://github" ++ String c ("com/" ++ owner ++ String "/" rest)) =
  if truthy (take_while repo_char rest) && Re.at_end (drop_while repo_char rest)
  then owner ++ String "/" (take_while repo_char rest)
  else "".
Proof.
  intros Hc Ho Hao. rewrite extract_repo_unfold.
  assert (E1 : strip "https://github"
                     ("https://github" ++ String c ("com/" ++ owner ++ String "/" rest))
               = Some (String c ("com/" ++ owner ++ String "/" rest)))
    by (now apply strip_some).
  rewrite E1, Hc. cbn [negb].
  assert (E2 : strip "com/" ("com/" ++ owner ++ String "/" rest)
               = Some (owner ++ String "/" rest)) by (now apply strip_some).
  rewrite E2. cbv zeta.
  destruct (take_while_stop owner_char owner "/" rest Hao eq_refl) as [T D].
  rewrite D, T, Ho. reflexivity.
Qed.

(** Where a non-empty result comes from: the url read back from the
    pattern, piece by piece. *)
Lemma extract_repo_shape (url : string) :
  extract_repo url <> "" ->
  exists c owner name tail,
    Ascii.eqb c newline = false
    /\ well_formed owner name
    /\ (tail = "" \/ tail = nl)
    /\ url = "https://github" ++ String c ("com/" ++ owner ++ "/" ++ name ++ tail)
    /\ extract_repo url = owner ++ "/" ++ name.
Proof.
  rewrite extract_repo_unfold.
  destruct (strip "https://github" url) as [[| c s2] |] eqn:E1;
    try (intros H; now destruct H).
  destruct (Ascii.eqb c newline) eqn:Hc; cbn [negb]; [intros H; now destruct H |].
  destruct (strip "com/" s2) as [s3 |] eqn:E2; [| intros H; now destruct H].
  cbv zeta.
  destruct (drop_while owner_char s3) as [| c' s'] eqn:E3; [intros H; now destruct H |].
  destruct (truthy (take_while owner_char s3) && Ascii.eqb "/" c'
            && truthy (take_while repo_char s')
            && Re.at_end (drop_while repo_char s')) eqn:E; [| intros H; now destruct H].
  intros _.
  apply andb_prop in E. destruct E as [E He].
  apply andb_prop in E. destruct E as [E Hn].
  apply andb_prop in E. destruct E as [Ho Hs].
  apply Ascii.eqb_eq in Hs. subst c'. apply at_end_cases in He.
  apply strip_some in E1. apply strip_some in E2. subst url s2.
  exists c, (take_while owner_char s3), (take_while repo_char s'),
    (drop_while repo_char s').
  split; [exact Hc |]. split.
  { unfold well_formed. rewrite Ho, Hn, !all_chars_take. auto. }
  split; [exact He |]. split; [| reflexivity].
  pose proof (take_drop owner_char s3) as T3. rewrite E3 in T3.
  pose proof (take_drop repo_char s') as T'.
  change (take_while owner_char s3 ++ "/"
          ++ take_while repo_char s' ++ drop_while repo_char s')
    with (take_while owner_char s3
          ++ String "/" (take_while repo_char s' ++ drop_while repo_char s')).
  now rewrite T', T3.
Qed.

Lemma prefix_append (p s : string) : prefix p (p ++ s) = true.
Proof.
  induction p as [| a p IH]; cbn; [now destruct s |].
  destruct (ascii_dec a a) as [_ | N]; [exact IH | now destruct N].
Qed.

(** C8 (amended). [extract_repo] is a function on all strings. On
    https://github.com/owner/repo, with owner a non-empty run of word
    characters and hyphens and repo a non-empty run of word characters,
    hyphens and dots, it returns owner/repo with the name as the url has
    it: nothing is trimmed. Whatever it returns that is not empty is the
    owner/repo of a url of that very shape, read with one character in
    the place of the dot of github.com and with at most a line end behind
    the name. It returns the empty string on every url that does not
    start with https://github, and on every url of the shape above that
    goes on behind the name with a character a name cannot hold, a sole
    final line end apart. *)
Theorem extract_repo_resolves :
  (forall owner name,
      well_formed owner name ->
      extract_repo ("https://github.com/" ++ owner ++ "/" ++ name) = owner ++ "/" ++ name)
  /\ (forall url,
         extract_repo url <> "" ->
         prefix "https://github" url = true
         /\ exists c owner name tail,
             Ascii.eqb c newline = false
             /\ well_formed owner name
             /\ (tail = "" \/ tail = nl)
             /\ url = "https://github" ++ String c ("com/" ++ owner ++ "/" ++ name ++ tail)
             /\ extract_repo url = owner ++ "/" ++ name)
  /\ (forall url, prefix "https://github" url = false -> extract_repo url = "")
  /\ (forall owner name c tail,
         well_formed owner name ->
         repo_char c = false ->
         Re.at_end (String c tail) = false ->
         extract_repo ("https://github.com/" ++ owner ++ "/" ++ name ++ String c tail) = "").
Proof.
  assert (inv : forall url,
             extract_repo url <> "" ->
             prefix "https://github" url = true
             /\ exists c owner name tail,
                 Ascii.eqb c newline = false
                 /\ well_formed owner name
                 /\ (tail = "" \/ tail = nl)
                 /\ url = "https://github" ++ String c ("com/" ++ owner ++ "/" ++ name ++ tail)
                 /\ extract_repo url = owner ++ "/" ++ name).
  { intros url N. destruct (extract_repo_shape url N) as (c & o & n & t & Hc & W & T & U & R).
    split; [rewrite U; apply prefix_append |].
    exists c, o, n, t. auto. }
  split; [| split; [| split]].
  - intros owner name (Ho & Hao & Hn & Han).
    change ("https://github.com/" ++ owner ++ "/" ++ name)
      with ("https://github" ++ String "." ("com/" ++ owner ++ String "/" name)).
    rewrite (extract_repo_on "." owner name eq_refl Ho Hao).
    destruct (take_while_all repo_char name Han) as [T D].
    rewrite T, D, Hn. reflexivity.
  - exact inv.
  - intros url H. destruct (string_dec (extract_repo url) "") as [E | N]; [exact E |].
    destruct (inv url N) as [P _]. congruence.
  - intros owner name c tail (Ho & Hao & Hn & Han) Hc He.
    change ("https://github.com/" ++ owner ++ "/" ++ name ++ String c tail)
      with ("https://github"
            ++ String "." ("com/" ++ owner ++ String "/" (name ++ String c tail))).
    rewrite (extract_repo_on "." owner _ eq_refl Ho Hao).
    destruct (take_while_stop repo_char name c tail Han Hc) as [T D].
    rewrite T, D, He, Hn. reflexivity.
Qed.

Lemma extract_repo_resolves_witness :
  extract_repo ("https://github.com/" ++ "acme" ++ "/" ++ "widget.git") = "acme/widget.git"
  /\ extract_repo "https://cran.r-project.org/package=x" = ""
  /\ extract_repo "not a url" = ""
  /\ extract_repo ("https://github.com/" ++ "acme" ++ "/" ++ "widget" ++ String "/" "tree/main") = ""
  /\ (prefix "https://github" "https://githubXcom/acme/widget" = true
      /\ exists c owner name tail,
          Ascii.eqb c newline = false
          /\ well_formed owner name
          /\ (tail = "" \/ tail = nl)
          /\ "https://githubXcom/acme/widget"
             = "https://github" ++ String c ("com/" ++ owner ++ "/" ++ name ++ tail)
          /\ extract_repo "https://githubXcom/acme/widget" = owner ++ "/" ++ name).
Proof.
  destruct extract_repo_resolves as (to & shape & fro & behind).
  split; [| split; [| split; [| split]]].
  - apply (to "acme" "widget.git"). repeat split.
  - apply fro. reflexivity.
  - apply fro. reflexivity.
  - apply (behind "acme" "widget" "/"%char "tree/main"); [repeat split | reflexivity | reflexivity].
  - apply (shape "https://githubXcom/acme/widget"). vm_compute. discriminate.
Defined.

(** C8, as stated, fails. A url that is not https://github.com/owner/repo
    gets a repository all the same when any other character stands in for
    the dot of github.com; and a name that ends in .git is returned with
    its suffix. *)
Lemma extract_repo_lax_host_and_no_trimming :
  prefix "https://github.com/" "https://githubXcom/acme/widget" = false
  /\ extract_repo "https://githubXcom/acme/widget" = "acme/widget"
  /\ extract_repo "https://github.com/acme/widget.git" = "acme/widget.git".
Proof. repeat split. Qed.

Example extract_repo_widget :
  extract_repo "https://github.com/acme/widget" = "acme/widget".
Proof. reflexivity. Qed.

(** A newline behind the repository is let through by [$]. *)
Example extract_repo_newline :
  extract_repo ("https://github.com/acme/widget" ++ String newline "") = "acme/widget".
Proof. reflexivity. Qed.

(* ------------------------------------------------------------------ *)
(** ** The fetcher: [get_last_commit] *)

Section Fetcher.

Variable g : api.
Variable repo : string.

(** One turn of the loop: one more lookup, the reaction to its answer
    behind it in the trace; the loop goes on exactly when the answer is
    transient, and ends with the answer otherwise. *)
Lemma attempt_body_spec (attempt : nat) (s : wstate) :
  attempt_body g repo attempt s =
  (if transient (g (calls s)) then Done Continue
   else wres_map Return (answer (g (calls s))),
   {| calls := S (calls s);
      trace := (trace s ++ Lookup repo :: reaction attempt (g (calls s)))%list |}).
Proof.
  unfold attempt_body, wbind, try_lookup, sleep, emit, wret.
  destruct (g (calls s)) as [d | reset now | status dict_data |]; cbn.
  - reflexivity.
  - destruct reset as [reset_time | |]; cbn; now rewrite <- !app_assoc.
  - destruct (status =? 404)%Z eqn:E4.
    + apply Z.eqb_eq in E4. subst status. reflexivity.
    + destruct (status =? 403)%Z; cbn; [now rewrite <- !app_assoc |].
      destruct dict_data; reflexivity.
  - reflexivity.
Qed.

Lemma first_final_bounds (n a k : nat) :
  first_final g a n = Some k ->
  a <= k < a + n
  /\ (forall j, a <= j < k -> transient (g j) = true)
  /\ transient (g k) = false.
Proof.
  revert a. induction n as [| n IH]; intros a; cbn [first_final]; [discriminate |].
  destruct (transient (g a)) eqn:T.
  - intros F. destruct (IH (S a) F) as (B & E & L). split; [lia |]. split; [| exact L].
    intros j Hj. destruct (Nat.eq_dec j a) as [-> | N]; [exact T | apply E; lia].
  - intros F. injection F as <-. split; [lia |]. split; [intros j Hj; lia | exact T].
Qed.

Lemma first_final_none (n a : nat) :
  first_final g a n = None -> forall j, a <= j < a + n -> transient (g j) = true.
Proof.
  revert a. induction n as [| n IH]; intros a; cbn [first_final]; [intros _ j Hj; lia |].
  destruct (transient (g a)) eqn:T; [| discriminate].
  intros F j Hj. destruct (Nat.eq_dec j a) as [-> | N]; [exact T | apply (IH (S a) F); lia].
Qed.

Lemma first_final_at (n a k : nat) :
  a <= k < a + n ->
  (forall j, a <= j < k -> transient (g j) = true) ->
  transient (g k) = false ->
  first_final g a n = Some k.
Proof.
  revert a. induction n as [| n IH]; intros a B E L; [lia |].
  cbn [first_final]. destruct (Nat.eq_dec a k) as [-> | N].
  - now rewrite L.
  - rewrite (E a) by lia. apply IH; [lia | intros j Hj; apply E; lia | exact L].
Qed.

(** The loop from turn [a] on, when the worker has made [a] lookups so
    far: it ends at the first answer that is not transient, or when the
    turns are used up. *)
Lemma attempts_spec (n a : nat) (t : list event) :
  attempts g repo (seq a n) {| calls := a; trace := t |} =
  match first_final g a n with
  | Some k =>
      (answer (g k),
       {| calls := S k;
          trace := (t ++ flat_map (fun j => Lookup repo :: reaction j (g j))
                                  (seq a (S k - a)))%list |})
  | None =>
      (Done "",
       {| calls := a + n;
          trace := (t ++ flat_map (fun j => Lookup repo :: reaction j (g j))
                                  (seq a n))%list |})
  end.
Proof.
  revert a t. induction n as [| n IH]; intros a t; cbn [seq attempts first_final].
  - unfold wret. cbn. now rewrite app_nil_r, Nat.add_0_r.
  - unfold wbind. rewrite attempt_body_spec. cbn [calls trace].
    destruct (transient (g a)) eqn:T.
    + rewrite IH. destruct (first_final g (S a) n) as [k |] eqn:F.
      * destruct (first_final_bounds _ _ _ F) as (L & _).
        replace (S k - a) with (S (S k - S a)) by lia.
        cbn [seq flat_map]. now rewrite <- app_assoc.
      * cbn [flat_map]. rewrite <- app_assoc. now rewrite Nat.add_succ_r.
    + replace (S a - a) with 1 by lia. cbn [seq flat_map]. rewrite app_nil_r.
      destruct (answer (g a)); reflexivity.
Qed.

Hypothesis named : truthy repo = true.

Lemma get_last_commit_attempts (s : wstate) :
  get_last_commit g repo s = attempts g repo (seq 0 max_retries) s.
Proof. unfold get_last_commit. rewrite named. reflexivity. Qed.

(** The whole of [get_last_commit] for a repository. *)
Lemma get_last_commit_spec :
  get_last_commit g repo wstart =
  match first_final g 0 max_retries with
  | Some k =>
      (answer (g k),
       {| calls := S k;
          trace := flat_map (fun j => Lookup repo :: reaction j (g j)) (seq 0 (S k)) |})
  | None =>
      (Done "",
       {| calls := max_retries;
          trace := flat_map (fun j => Lookup repo :: reaction j (g j))
                            (seq 0 max_retries) |})
  end.
Proof.
  rewrite get_last_commit_attempts. unfold wstart. rewrite attempts_spec.
  destruct (first_final g 0 max_retries) as [k |]; cbn [app Nat.add];
    [now rewrite Nat.sub_0_r | reflexivity].
Qed.

End Fetcher.

(** Events that came before do not matter to [get_last_commit]: it adds
    its own behind them. *)
Lemma get_last_commit_frame (g : api) (repo : string) (t : list event) :
  get_last_commit g repo {| calls := 0; trace := t |} =
  (fst (get_last_commit g repo wstart),
   {| calls := calls (snd (get_last_commit g repo wstart));
      trace := (t ++ trace (snd (get_last_commit g repo wstart)))%list |}).
Proof.
  unfold get_last_commit, wstart. destruct (negb (truthy repo)).
  - unfold wret. cbn. now rewrite app_nil_r.
  - rewrite !attempts_spec.
    destruct (first_final g 0 max_retries); reflexivity.
Qed.

Lemma flat_map_agree {A B : Type} (f h : A -> list B) (l : list A) :
  (forall a, In a l -> f a = h a) -> flat_map f l = flat_map h l.
Proof.
  induction l as [| a l IH]; intros H; [reflexivity |].
  cbn [flat_map]. rewrite (H a) by (left; reflexivity).
  rewrite IH; [reflexivity | intros b Hb; apply H; right; exact Hb].
Qed.

Lemma slept_app (t u : list event) : slept (t ++ u) = (slept t ++ slept u)%list.
Proof.
  induction t as [| e t IH]; [reflexivity |].
  destruct e; cbn; now rewrite IH.
Qed.

Lemma lookups_app (t u : list event) : lookups (t ++ u) = lookups t + lookups u.
Proof. unfold lookups. now rewrite filter_app, length_app. Qed.

Lemma transient_datetime_client (g : api) (k : nat) :
  datetime_client g -> transient (g k) = true -> exists b, g k = GithubError 403 b.
Proof.
  intros P T. destruct (g k) as [d | reset now | status b |] eqn:E; try discriminate.
  - destruct reset as [q | |]; [| discriminate | discriminate].
    now destruct (P k (Seconds q) now E).
  - cbn in T. apply Z.eqb_eq in T. subst status. eauto.
Qed.

(** The sleeps of the turns [a], ..., [a + n - 1] when each of them ends
    with status 403. *)
Lemma slept_forbidden_turns (g : api) (repo : string) (n a : nat) :
  (forall j, a <= j < a + n -> exists b, g j = GithubError 403 b) ->
  slept (flat_map (fun j => Lookup repo :: reaction j (g j)) (seq a n)) =
  map (fun j => inject_Z (base_delay * 2 ^ Z.of_nat j)) (seq a n)
  /\ lookups (flat_map (fun j => Lookup repo :: reaction j (g j)) (seq a n)) = n.
Proof.
  revert a. induction n as [| n IH]; intros a H; [split; reflexivity |].
  cbn [seq flat_map map]. destruct (H a) as [b E]; [lia |].
  destruct (IH (S a)) as [I1 I2]; [intros j Hj; apply H; lia |].
  rewrite E. cbn [reaction Z.eqb Pos.eqb app]. split.
  - cbn [slept]. now rewrite I1.
  - unfold lookups in *. cbn [filter is_lookup List.length]. now rewrite I2.
Qed.

(** C4 (the failure). The handler of the rate limit does not get as far
    as its wait. When the first lookup that does not end with status 403
    ends with a rate limit, and the reset time the client then gives is
    no number of seconds (PyGithub gives a datetime), line 51 raises in
    the handler: [get_last_commit] ends with that exception right after
    the query for the reset time, without a sleep and without another
    lookup, and the worker that called it ends with it too, without a
    row. *)
Theorem rate_limit_ends_fetch (g : api) (repo : string) (k : nat)
        (reset : reading) (now : Q) (e : fault) :
  truthy repo = true ->
  k < max_retries ->
  (forall j, j < k -> exists b, g j = GithubError 403 b) ->
  g k = RateLimitExceeded reset now ->
  unreadable reset = Some e ->
  get_last_commit g repo wstart =
  (Failed e,
   {| calls := S k;
      trace := (flat_map
                  (fun j => [Lookup repo; Sleep (inject_Z (base_delay * 2 ^ Z.of_nat j))])
                  (seq 0 k)
                ++ [Lookup repo; RateLimitQuery])%list |})
  /\ (forall m sec,
         extract_repo (Re.group m 2) = repo ->
         fst (run g m sec wstart) = Failed e
         /\ lookups (trace (snd (run g m sec wstart))) = S k
         /\ slept (trace (snd (run g m sec wstart))) =
            ((1 # 10)%Q :: map (fun j => inject_Z (base_delay * 2 ^ Z.of_nat j)) (seq 0 k))).
Proof.
  intros named B early limited E.
  assert (T : transient (g k) = false).
  { rewrite limited. destruct reset; [discriminate | reflexivity | reflexivity]. }
  assert (F : first_final g 0 max_retries = Some k).
  { apply first_final_at; [lia | | exact T].
    intros j Hj. destruct (early j) as [b ->]; [lia | reflexivity]. }
  assert (P : flat_map (fun j => Lookup repo :: reaction j (g j)) (seq 0 k) =
              flat_map (fun j => [Lookup repo;
                                  Sleep (inject_Z (base_delay * 2 ^ Z.of_nat j))])
                       (seq 0 k)).
  { apply flat_map_agree. intros j Hj. apply in_seq in Hj.
    destruct (early j) as [b ->]; [lia | reflexivity]. }
  assert (R : reaction k (g k) = [RateLimitQuery]).
  { rewrite limited. destruct reset; [discriminate | reflexivity | reflexivity]. }
  assert (A : answer (g k) = Failed e).
  { rewrite limited. cbn [answer]. now rewrite E. }
  assert (G : get_last_commit g repo wstart =
              (Failed e,
               {| calls := S k;
                  trace := (flat_map
                              (fun j => [Lookup repo;
                                         Sleep (inject_Z (base_delay * 2 ^ Z.of_nat j))])
                              (seq 0 k)
                            ++ [Lookup repo; RateLimitQuery])%list |})).
  { rewrite (get_last_commit_spec g repo named), F, A.
    rewrite seq_S, flat_map_app. cbn [Nat.add flat_map]. rewrite R, P, app_nil_r.
    reflexivity. }
  split; [exact G |].
  intros m sec Hm. unfold run, wbind, sleep, emit. cbn [calls trace wstart app].
  rewrite Hm, named. cbn [negb]. rewrite andb_false_r.
  rewrite get_last_commit_frame, G. cbn [fst snd calls trace].
  split; [reflexivity |].
  destruct (slept_forbidden_turns g repo k 0) as [S1 S2];
    [intros j Hj; apply early; lia |].
  rewrite P in S1, S2.
  change (?x :: ?l ++ ?r)%list with ([x] ++ l ++ r)%list.
  rewrite !lookups_app, !slept_app, S1, S2. cbn [slept app]. rewrite app_nil_r.
  split; [unfold lookups; cbn; lia | reflexivity].
Qed.

Lemma rate_limit_ends_fetch_witness :
  get_last_commit (fun _ => RateLimitExceeded Datetime 980) "acme/widget" wstart =
  (Failed TypeError, {| calls := 1; trace := [Lookup "acme/widget"; RateLimitQuery] |}).
Proof.
  destruct (rate_limit_ends_fetch (fun _ => RateLimitExceeded Datetime 980) "acme/widget"
              0 Datetime 980 TypeError) as [H _].
  - reflexivity.
  - unfold max_retries. lia.
  - intros j Hj. lia.
  - reflexivity.
  - reflexivity.
  - exact H.
Defined.

(** What lines 51 to 54 do with a reset time that is a number, as no
    PyGithub client gives it: the wait takes one of the three turns. *)
Example numeric_reset_uses_up_attempts :
  get_last_commit
    (fun k => if (k <? 3)%nat then RateLimitExceeded (Seconds 1000) 980
              else Date "2024-03-01")
    "acme/widget" wstart
  = (Done "",
     {| calls := 3;
        trace := [Lookup "acme/widget"; RateLimitQuery; Sleep 60;
                  Lookup "acme/widget"; RateLimitQuery; Sleep 60;
                  Lookup "acme/widget"; RateLimitQuery; Sleep 60] |}).
Proof. vm_compute. reflexivity. Qed.

(** C5 (the failure). With a client whose reset times are no numbers of
    seconds, as PyGithub's, nothing is ever slept for a rate limit and no
    lookup is retried after one. The sleeps of [get_last_commit] are the
    backoff sleeps of the status 403 answers that came first, and nothing
    else; and a lookup that ends with a rate limit is the last one: the
    reset time is asked for, and the fetch ends there with the exception
    of line 50 or 51. *)
Theorem rate_limit_never_slept (g : api) (repo : string) :
  truthy repo = true ->
  datetime_client g ->
  (exists n,
      n <= max_retries
      /\ (forall j, j < n -> exists b, g j = GithubError 403 b)
      /\ slept (trace (snd (get_last_commit g repo wstart))) =
         map (fun j => inject_Z (base_delay * 2 ^ Z.of_nat j)) (seq 0 n))
  /\ (forall k reset now,
         k < calls (snd (get_last_commit g repo wstart)) ->
         g k = RateLimitExceeded reset now ->
         calls (snd (get_last_commit g repo wstart)) = S k
         /\ (exists e, unreadable reset = Some e
                       /\ fst (get_last_commit g repo wstart) = Failed e)
         /\ exists before,
             trace (snd (get_last_commit g repo wstart)) =
             (before ++ [Lookup repo; RateLimitQuery])%list).
Proof.
  intros named P. rewrite (get_last_commit_spec g repo named).
  destruct (first_final g 0 max_retries) as [k |] eqn:F; cbn [fst snd calls trace].
  - destruct (first_final_bounds g _ _ _ F) as (B & E & L).
    assert (early : forall j, 0 <= j < 0 + k -> exists b, g j = GithubError 403 b).
    { intros j Hj. apply transient_datetime_client; [exact P | apply E; lia]. }
    destruct (slept_forbidden_turns g repo k 0 early) as [S1 _].
    rewrite seq_S, flat_map_app, slept_app, S1. cbn [Nat.add flat_map].
    rewrite app_nil_r. split.
    + exists k. split; [lia |]. split; [intros j Hj; apply early; lia |].
      assert (Z : slept (Lookup repo :: reaction k (g k)) = []).
      { destruct (g k) as [d | reset now | status b |] eqn:Ek; try reflexivity.
        - destruct reset as [q | |]; [| reflexivity | reflexivity].
          now destruct (P k (Seconds q) now Ek).
        - cbn in L |- *. rewrite L. reflexivity. }
      rewrite Z. now rewrite app_nil_r.
    + intros k' reset now Hk limited.
      assert (X : k' = k).
      { destruct (Nat.eq_dec k' k) as [X | N]; [exact X |].
        destruct (early k') as [b Eb]; [lia | congruence]. }
      subst k'. split; [reflexivity |]. rewrite limited.
      destruct reset as [q | |].
      * now destruct (P k (Seconds q) now limited).
      * split; [exists TypeError; split; reflexivity |]. eexists. reflexivity.
      * split; [exists AttributeError; split; reflexivity |]. eexists. reflexivity.
  - assert (early : forall j, 0 <= j < 0 + max_retries -> exists b, g j = GithubError 403 b).
    { intros j Hj. apply transient_datetime_client; [exact P |].
      apply (first_final_none g _ _ F). exact Hj. }
    destruct (slept_forbidden_turns g repo max_retries 0 early) as [S1 _].
    split.
    + exists max_retries. split; [lia |]. split; [intros j Hj; apply early; lia | exact S1].
    + intros k reset now Hk limited. destruct (early k) as [b Eb]; [lia | congruence].
Qed.

Lemma rate_limit_never_slept_witness :
  slept (trace (snd (get_last_commit
                       (fun k => match k with
                                 | 0 => GithubError 403 true
                                 | 1 => RateLimitExceeded Datetime 980
                                 | _ => Date "2024-03-01"
                                 end) "acme/widget" wstart))) = [1%Q]
  /\ calls (snd (get_last_commit
                   (fun k => match k with
                             | 0 => GithubError 403 true
                             | 1 => RateLimitExceeded Datetime 980
                             | _ => Date "2024-03-01"
                             end) "acme/widget" wstart)) = 2
  /\ fst (get_last_commit
            (fun k => match k with
                      | 0 => GithubError 403 true
                      | 1 => RateLimitExceeded Datetime 980
                      | _ => Date "2024-03-01"
                      end) "acme/widget" wstart) = Failed TypeError.
Proof.
  pose (g := fun k : nat => match k with
                            | 0 => GithubError 403 true
                            | 1 => RateLimitExceeded Datetime 980
                            | _ => Date "2024-03-01"
                            end).
  assert (P : datetime_client g).
  { intros k reset now. destruct k as [| [| k]]; cbn; try discriminate.
    intros H. injection H as <- _. discriminate. }
  destruct (rate_limit_never_slept g "acme/widget" eq_refl P) as [_ H].
  destruct (H 1 Datetime 980%Q) as (C & (e & U & R) & _).
  - vm_compute. lia.
  - reflexivity.
  - subst g. split; [vm_compute; reflexivity |]. split; [exact C |].
    rewrite R. injection U as <-. reflexivity.
Defined.

(** What lines 51 to 53 compute from a reset time that is a number: ten
    seconds on top of the time to the reset, and sixty at the least. With
    the reset 20 seconds away that is 60 seconds. *)
Example numeric_reset_sleep :
  trace (snd (get_last_commit
                (fun k => match k with
                          | O => RateLimitExceeded (Seconds 1000) 980
                          | _ => Date "2024-03-01"
                          end) "acme/widget" wstart))
  = [Lookup "acme/widget"; RateLimitQuery; Sleep 60; Lookup "acme/widget"].
Proof. vm_compute. reflexivity. Qed.

(** C6. When every lookup is refused with status 403, the fetcher makes
    exactly [max_retries] = 3 lookups, sleeps base_delay * 2^attempt after
    each of them, that is 1, 2 and 4 seconds, and returns the empty date. *)
Theorem forbidden_backoff (g : api) (repo : string) :
  truthy repo = true ->
  (forall k, exists b, g k = GithubError 403 b) ->
  get_last_commit g repo wstart =
  (Done "",
   {| calls := max_retries;
      trace := flat_map
                 (fun attempt =>
                    [Lookup repo; Sleep (inject_Z (base_delay * 2 ^ Z.of_nat attempt))])
                 (seq 0 max_retries) |})
  /\ trace (snd (get_last_commit g repo wstart)) =
     [Lookup repo; Sleep 1; Lookup repo; Sleep 2; Lookup repo; Sleep 4]
  /\ lookups (trace (snd (get_last_commit g repo wstart))) = max_retries.
Proof.
  intros named forbidden.
  assert (T : forall k, transient (g k) = true).
  { intros k. destruct (forbidden k) as [b ->]. reflexivity. }
  assert (R : forall k, reaction k (g k) =
                        [Sleep (inject_Z (base_delay * 2 ^ Z.of_nat k))]).
  { intros k. destruct (forbidden k) as [b ->]. reflexivity. }
  assert (E : get_last_commit g repo wstart =
              (Done "", {| calls := 3;
                           trace := [Lookup repo; Sleep 1; Lookup repo; Sleep 2;
                                     Lookup repo; Sleep 4] |})).
  { rewrite (get_last_commit_spec g repo named).
    unfold max_retries. cbn [first_final]. rewrite !T. cbn [seq flat_map app]. rewrite !R.
    reflexivity. }
  rewrite E. repeat split.
Qed.

Lemma forbidden_backoff_witness :
  trace (snd (get_last_commit (fun _ => GithubError 403 false) "acme/widget" wstart)) =
  [Lookup "acme/widget"; Sleep 1; Lookup "acme/widget"; Sleep 2;
   Lookup "acme/widget"; Sleep 4].
Proof.
  apply (forbidden_backoff (fun _ => GithubError 403 false) "acme/widget");
    [reflexivity | intros k; exists false; reflexivity].
Defined.

(** C7. When the first lookup fails with status 404, the fetcher returns
    the empty date after that one lookup: no sleep, no second lookup. *)
Theorem not_found_no_retry (g : api) (repo : string) :
  truthy repo = true ->
  (exists b, g 0 = GithubError 404 b) ->
  get_last_commit g repo wstart = (Done "", {| calls := 1; trace := [Lookup repo] |}).
Proof.
  intros named [b missing].
  rewrite (get_last_commit_spec g repo named).
  assert (T : transient (g 0) = false) by (rewrite missing; reflexivity).
  unfold max_retries. cbn [first_final]. rewrite T. cbn [seq flat_map app].
  rewrite missing. reflexivity.
Qed.

Lemma not_found_no_retry_witness :
  get_last_commit (fun _ => GithubError 404 false) "acme/widget" wstart =
  (Done "", {| calls := 1; trace := [Lookup "acme/widget"] |}).
Proof.
  apply (not_found_no_retry (fun _ => GithubError 404 false) "acme/widget");
    [reflexivity | exists false; reflexivity].
Defined.
(* ------------------------------------------------------------------ *)
(** ** The worker: [Project.run] *)

(** The worker sleeps its tenth of a second, gets its date, and stores
    the row for it; when getting the date raises, so does the worker. *)
Lemma run_spec (g : api) (m : Re.match_object) (sec : string) :
  run g m sec wstart =
  let d := if contains "cran.r-project.org" (Re.group m 2)
              && negb (truthy (extract_repo (Re.group m 2)))
           then (Done (get_cran_publication_date (Re.group m 2)), wstart)
           else get_last_commit g (extract_repo (Re.group m 2)) wstart in
  (wres_map (row_of m sec) (fst d),
   {| calls := calls (snd d); trace := Sleep (1 # 10) :: trace (snd d) |}).
Proof.
  unfold run, wbind, sleep, emit. cbn [calls trace wstart app].
  destruct (contains "cran.r-project.org" (Re.group m 2)
            && negb (truthy (extract_repo (Re.group m 2)))).
  - reflexivity.
  - rewrite get_last_commit_frame. cbv zeta.
    destruct (get_last_commit g (extract_repo (Re.group m 2)) wstart) as [[d | e] s];
      reflexivity.
Qed.

(** The flags and the repository of a row are functions of the url
    alone. *)
Lemma run_row (g : api) (m : Re.match_object) (sec : string) (r : row) :
  fst (run g m sec wstart) = Done r ->
  project r = Re.group m 1
  /\ section r = sec
  /\ url r = Re.group m 2
  /\ description r = Re.group m 3
  /\ github r = contains "github.com" (Re.group m 2)
  /\ cran r = contains "cran.r-project.org" (Re.group m 2)
  /\ repo r = extract_repo (Re.group m 2).
Proof.
  rewrite run_spec. cbv zeta. cbn [fst].
  match goal with |- wres_map _ ?x = _ -> _ => destruct x as [d | e] end;
    [| discriminate].
  cbn [wres_map]. intros H. injection H as <-. repeat split.
Qed.

(** Without a repository the worker makes no lookup: it sleeps its tenth
    of a second and takes the date from the url alone. *)
Lemma run_without_repo (g : api) (m : Re.match_object) (sec : string) :
  extract_repo (Re.group m 2) = "" ->
  run g m sec wstart =
  (Done (row_of m sec
                (if contains "cran.r-project.org" (Re.group m 2) then "1999-01-01" else "")),
   {| calls := 0; trace := [Sleep (1 # 10)] |}).
Proof.
  intros H. rewrite run_spec. rewrite H. unfold get_cran_publication_date.
  destruct (contains "cran.r-project.org" (Re.group m 2)); reflexivity.
Qed.

Example rex_item_A : Re.rmatch rex (Re.subject item_A) = Some item_A.
Proof. reflexivity. Qed.

Example rex_item_B : Re.rmatch rex (Re.subject item_B) = Some item_B.
Proof. reflexivity. Qed.

Example rex_item_C : Re.rmatch rex (Re.subject item_C) = Some item_C.
Proof. reflexivity. Qed.

(** The worker on the entry with a repository, against a client that
    answers with the date of the last commit. *)
Example run_item_A :
  run (fun _ => Date "2024-03-01") item_A "Python" wstart =
  (Done {| project := "A"; section := "Python"; last_commit := "2024-03-01";
           url := "https://github.com/a/a"; description := "first";
           github := true; cran := false; repo := "a/a" |},
   {| calls := 1; trace := [Sleep 0.1; Lookup "a/a"] |}).
Proof. reflexivity. Qed.

(** The same worker against a client that answers with a rate limit, as
    PyGithub reports it: the worker ends in the handler, and no row is
    stored. *)
Example run_item_A_rate_limited :
  run (fun _ => RateLimitExceeded Datetime 980) item_A "Python" wstart =
  (Failed TypeError,
   {| calls := 1; trace := [Sleep 0.1; Lookup "a/a"; RateLimitQuery] |}).
Proof. reflexivity. Qed.

(** C9. For an entry whose url contains cran.r-project.org and has no
    GitHub repository behind it, the worker takes the date 1999-01-01
    without a lookup, whatever the client would answer; for an entry whose
    url has neither, it takes the empty date, again without a lookup. In
    both cases the worker comes to its end and stores its row. *)
Theorem registry_and_unknown_dates (g : api) (m : Re.match_object) (sec : string) :
  extract_repo (Re.group m 2) = "" ->
  exists r,
    fst (run g m sec wstart) = Done r
    /\ (contains "cran.r-project.org" (Re.group m 2) = true ->
        last_commit r = "1999-01-01")
    /\ (contains "cran.r-project.org" (Re.group m 2) = false ->
        last_commit r = "")
    /\ lookups (trace (snd (run g m sec wstart))) = 0
    /\ calls (snd (run g m sec wstart)) = 0.
Proof.
  intros H. rewrite (run_without_repo g m sec H). eexists. split; [reflexivity |].
  cbn [fst snd last_commit row_of trace calls]. repeat split.
  - intros E. rewrite E. reflexivity.
  - intros E. rewrite E. reflexivity.
Qed.

Lemma registry_and_unknown_dates_witness :
  (exists r, fst (run (fun _ => OtherError) item_B "R" wstart) = Done r
             /\ last_commit r = "1999-01-01")
  /\ (exists r, fst (run (fun _ => Date "2024-03-01") item_C "R" wstart) = Done r
                /\ last_commit r = "").
Proof.
  split.
  - destruct (registry_and_unknown_dates (fun _ => OtherError) item_B "R" eq_refl)
      as (r & E & H & _).
    exists r. split; [exact E | apply H; reflexivity].
  - destruct (registry_and_unknown_dates (fun _ => Date "2024-03-01") item_C "R" eq_refl)
      as (r & E & _ & H & _).
    exists r. split; [exact E | apply H; reflexivity].
Defined.

(** C10. The github and cran flags of a row are the substring tests on
    the url, whatever [extract_repo] finds: in every row a worker stores,
    github is set when the url contains github.com and is not set when it
    does not, and cran likewise with cran.r-project.org. So for a url that
    contains github.com and which the repository pattern does not match,
    the worker stores a row with github = true and repo = "", and, when
    the url does not contain cran.r-project.org either, with an empty
    last_commit and without a lookup. *)
Theorem flags_are_substring_tests (g : api) (m : Re.match_object) (sec : string) :
  (forall r,
      fst (run g m sec wstart) = Done r ->
      github r = contains "github.com" (Re.group m 2)
      /\ cran r = contains "cran.r-project.org" (Re.group m 2))
  /\ (contains "github.com" (Re.group m 2) = true ->
      Re.rmatch reu (Re.group m 2) = None ->
      exists r,
        fst (run g m sec wstart) = Done r
        /\ github r = true
        /\ repo r = ""
        /\ (contains "cran.r-project.org" (Re.group m 2) = false ->
            last_commit r = "" /\ lookups (trace (snd (run g m sec wstart))) = 0)).
Proof.
  split.
  - intros r H. destruct (run_row g m sec r H) as (_ & _ & _ & _ & Hgh & Hcr & _).
    split; assumption.
  - intros Hg Hm.
    assert (He : extract_repo (Re.group m 2) = "").
    { unfold extract_repo. rewrite Hm. reflexivity. }
    rewrite (run_without_repo g m sec He). eexists. split; [reflexivity |].
    cbn [fst snd github repo last_commit row_of trace].
    split; [exact Hg |]. split; [exact He |].
    intros E. rewrite E. split; reflexivity.
Qed.

(** [rex] on list items whose url has a further path segment, a query
    string, a trailing slash. *)
Example rex_item_tree : Re.rmatch rex (Re.subject item_tree) = Some item_tree.
Proof. reflexivity. Qed.

Example rex_item_query : Re.rmatch rex (Re.subject item_query) = Some item_query.
Proof. reflexivity. Qed.

Example rex_item_slash : Re.rmatch rex (Re.subject item_slash) = Some item_slash.
Proof. reflexivity. Qed.

Lemma flags_are_substring_tests_witness :
  Forall (fun m => exists r,
              fst (run (fun _ => Date "2024-03-01") m "Python" wstart) = Done r
              /\ github r = true /\ repo r = "" /\ last_commit r = "")
         [item_tree; item_query; item_slash]
  /\ (exists r,
         fst (run (fun _ => Date "2024-03-01") item_B "R" wstart) = Done r
         /\ github r = false /\ cran r = true)
  /\ (exists r,
         fst (run (fun _ => Date "2024-03-01") item_A "Python" wstart) = Done r
         /\ github r = true /\ cran r = false).
Proof.
  split; [| split].
  - repeat (apply Forall_cons || apply Forall_nil).
    + destruct (flags_are_substring_tests (fun _ => Date "2024-03-01") item_tree "Python")
        as [_ H].
      destruct (H eq_refl eq_refl) as (r & E & H1 & H2 & H3).
      exists r. split; [exact E |]. split; [exact H1 |]. split; [exact H2 |].
      apply H3. reflexivity.
    + destruct (flags_are_substring_tests (fun _ => Date "2024-03-01") item_query "Python")
        as [_ H].
      destruct (H eq_refl eq_refl) as (r & E & H1 & H2 & H3).
      exists r. split; [exact E |]. split; [exact H1 |]. split; [exact H2 |].
      apply H3. reflexivity.
    + destruct (flags_are_substring_tests (fun _ => Date "2024-03-01") item_slash "Python")
        as [_ H].
      destruct (H eq_refl eq_refl) as (r & E & H1 & H2 & H3).
      exists r. split; [exact E |]. split; [exact H1 |]. split; [exact H2 |].
      apply H3. reflexivity.
  - destruct (flags_are_substring_tests (fun _ => Date "2024-03-01") item_B "R") as [H _].
    exists (row_of item_B "R" "1999-01-01"). split; [reflexivity |].
    exact (H (row_of item_B "R" "1999-01-01") eq_refl).
  - destruct (flags_are_substring_tests (fun _ => Date "2024-03-01") item_A "Python")
      as [H _].
    exists (row_of item_A "Python" "2024-03-01"). split; [reflexivity |].
    exact (H (row_of item_A "Python" "2024-03-01") eq_refl).
Defined.
(* ------------------------------------------------------------------ *)
(** ** The main thread *)

Lemma set_state_last (st : tstate) (l : list thread) (p : thread) :
  set_state (List.length l) st (l ++ [p])%list =
  (l ++ [{| p_match := p_match p; p_section := p_section p; p_state := st |}])%list.
Proof. induction l as [| x l IH]; cbn; [reflexivity | now rewrite IH]. Qed.

(** A list item: a new thread object, started on the spot, and a
    reference to it at the end of [projects]. *)
Lemma parse_line_item (line : string) (m : Re.match_object) (ps : parser) (s : mstate) :
  Re.rmatch rex line = Some m ->
  parse_line line ps s =
  (Normal {| m_titles := m_titles ps; last_head_level := last_head_level ps;
             projects := (projects ps ++ [List.length (pool s)])%list |},
   {| pool := (pool s ++ [{| p_match := m;
                             p_section := join " > " (tl (m_titles ps));
                             p_state := Running |}])%list;
      rounds := rounds s;
      mlog := (mlog s ++ [Started (List.length (pool s))])%list |}).
Proof.
  intros H. unfold parse_line. rewrite H.
  unfold mbind, new_project, start, mret. cbn [pool rounds mlog].
  rewrite nth_error_app2 by lia. rewrite Nat.sub_diag. cbn [nth_error p_state].
  rewrite set_state_last. reflexivity.
Qed.

Lemma pop_times_pure (n : nat) (l : list string) (s : mstate) :
  (exists l', pop_times n l s = (Normal l', s))
  \/ (exists msg, pop_times n l s = (Raised (IndexError msg), s)).
Proof.
  revert l. induction n as [| n IH]; intros l; cbn.
  - left. eexists. reflexivity.
  - unfold mbind, pop. destruct l as [| x l].
    + right. eexists. reflexivity.
    + unfold mret. apply IH.
Qed.

(** Any other line leaves the threads alone: a heading changes the titles,
    or fails on popping from the empty list. *)
Lemma parse_line_other (line : string) (ps : parser) (s : mstate) :
  Re.rmatch rex line = None ->
  (exists ps', parse_line line ps s = (Normal ps', s) /\ projects ps' = projects ps)
  \/ (exists msg, parse_line line ps s = (Raised (IndexError msg), s)).
Proof.
  intros H. unfold parse_line. rewrite H.
  destruct (Re.rmatch ret line) as [m |].
  - unfold mbind.
    destruct (last_head_level ps <? String.length (Re.group m 1))%nat.
    + left. eexists. split; reflexivity.
    + destruct (pop_times_pure
                  (last_head_level ps - String.length (Re.group m 1) + 1)
                  (m_titles ps) s) as [[l' E] | [msg E]]; rewrite E.
      * left. eexists. split; reflexivity.
      * right. eexists. reflexivity.
  - left. eexists. split; reflexivity.
Qed.

(** The parse loop. When it comes to its end, every entry of the README
    has a thread object of its own, already running, and [projects] lists
    them in the order of the entries; nothing but these starts has
    happened. It can only fail on a heading. *)
Lemma parse_spec (lines : list string) (ps : parser) (s : mstate) :
  all_running s ->
  match parse lines ps s with
  | (Normal ps', s') =>
      all_running s'
      /\ projects ps' =
         (projects ps ++ seq (List.length (pool s)) (List.length (entries lines)))%list
      /\ List.length (pool s') = List.length (pool s) + List.length (entries lines)
      /\ mlog s' =
         (mlog s ++ map Started (seq (List.length (pool s))
                                     (List.length (entries lines))))%list
      /\ rounds s' = rounds s
  | (Raised e, s') =>
      (exists msg, e = IndexError msg)
      /\ rounds s' = rounds s
      /\ exists j, mlog s' = (mlog s ++ map Started (seq (List.length (pool s)) j))%list
  | (Hung, _) => False
  end.
Proof.
  revert ps s. induction lines as [| line lines IH]; intros ps s run; cbn [parse].
  - unfold mret. cbn. rewrite !app_nil_r, Nat.add_0_r. auto.
  - unfold mbind. cbn [entries].
    destruct (Re.rmatch rex line) as [m |] eqn:E.
    + rewrite (parse_line_item line m ps s E).
      match goal with |- context [parse lines ?p ?t] =>
        specialize (IH p t); destruct (parse lines p t) as [[ps' | e |] s']
      end; cbn [pool mlog rounds projects] in IH;
        rewrite ?length_app in IH; cbn [List.length] in IH;
        rewrite ?Nat.add_1_r in IH.
      * destruct IH as (R & P & L & G & T).
        { apply Forall_app. split; [exact run | repeat constructor]. }
        cbn [List.length seq map]. rewrite P, L, G, T, <- !app_assoc.
        repeat split; try assumption. lia.
      * destruct IH as (X & T & j & G).
        { apply Forall_app. split; [exact run | repeat constructor]. }
        split; [exact X |]. split; [exact T |].
        exists (S j). rewrite G, <- app_assoc. reflexivity.
      * apply IH. apply Forall_app. split; [exact run | repeat constructor].
    + destruct (parse_line_other line ps s E) as [(ps1 & E1 & P1) | (msg & E1)];
        rewrite E1.
      * specialize (IH ps1 s run). rewrite P1 in IH. exact IH.
      * split; [eauto |]. split; [reflexivity |].
        exists 0. cbn. now rewrite app_nil_r.
Qed.

Lemma range_step_first (n step : nat) :
  0 < n -> 0 < step -> exists todo, range_step n step = 0 :: todo.
Proof.
  intros Hn Hs. unfold range_step.
  destruct ((n + step - 1) / step) as [| k] eqn:E.
  - apply Nat.div_small_iff in E; lia.
  - cbn. eexists. reflexivity.
Qed.

(** [start] on a thread that is running raises and changes nothing. *)
Lemma start_running (id : nat) (s : mstate) :
  all_running s -> id < List.length (pool s) ->
  start id s = (Raised (RuntimeError "threads can only be started once"), s).
Proof.
  intros run H. unfold start.
  destruct (nth_error (pool s) id) as [p |] eqn:E.
  - apply nth_error_In in E.
    unfold all_running in run. rewrite Forall_forall in run.
    rewrite (run p E). reflexivity.
  - apply nth_error_None in E. lia.
Qed.

(** The batch loop over threads that are all running already: the first
    [p.start()] of the first batch raises. *)
Lemma batches_raise (fuel : nat) (sched : schedule) (ids : list nat) (s : mstate) :
  all_running s ->
  ids <> [] ->
  Forall (fun id => id < List.length (pool s)) ids ->
  batches fuel sched ids (range_step (List.length ids) batch_size) s =
  (Raised (RuntimeError "threads can only be started once"), s).
Proof.
  intros run N B. destruct ids as [| id ids]; [now destruct N |].
  destruct (range_step_first (List.length (id :: ids)) batch_size) as [todo E];
    [cbn; lia | unfold batch_size; lia |].
  rewrite E. cbn [batches skipn batch_size firstn start_all]. unfold mbind at 1.
  unfold mbind at 1.
  rewrite start_running; [reflexivity | exact run |].
  now inversion B.
Qed.

(** What the module body comes to, on any README and under any schedule:
    without entries it hands the empty list to the table writer; with
    entries it raises, on a heading in the parse loop or else on the first
    [p.start()] of the batch loop, with every worker started in the parse
    loop. It never gets to wait or to pause. *)
Lemma main_cases (fuel : nat) (sched : schedule) (apis : nat -> api)
      (readme : list string) :
  match main fuel sched apis readme boot with
  | (Normal rows, s) => entries readme = [] /\ rows = [] /\ mlog s = []
  | (Raised e, s) =>
      ((exists msg, e = IndexError msg)
       /\ exists j, mlog s = map Started (seq 0 j))
      \/ (e = RuntimeError "threads can only be started once"
          /\ entries readme <> []
          /\ mlog s = map Started (seq 0 (List.length (entries readme))))
  | (Hung, _) => False
  end.
Proof.
  unfold main. unfold mbind at 1.
  pose proof (parse_spec readme
                {| m_titles := []; last_head_level := 0; projects := [] |} boot) as P.
  destruct (parse readme _ boot) as [[ps | e |] s].
  - destruct P as (R & Pr & L & G & T); [constructor |].
    cbn [boot pool mlog projects List.length app Nat.add] in Pr, L, G.
    destruct (entries readme) as [| m ms] eqn:E.
    + cbn in Pr, G. rewrite Pr. cbn. auto.
    + unfold mbind at 1. rewrite batches_raise.
      * right. split; [reflexivity |]. split; [discriminate | exact G].
      * exact R.
      * rewrite Pr. discriminate.
      * rewrite Pr, L. apply Forall_forall. intros id H.
        apply in_seq in H. lia.
  - destruct P as (X & _ & j & G); [constructor |]. left. split; [exact X |].
    exists j. exact G.
  - apply P. constructor.
Qed.

(** The batch loop on its own, over eleven threads that have not been
    started and that end within a second: ten starts, the wait, the pause,
    the last start, the wait. *)
Example batch_loop_on_fresh_threads :
  batches 3 (fun _ _ => true) (seq 0 11) (range_step 11 batch_size) (fresh_pool 11) =
  (Normal tt,
   {| pool := repeat {| p_match := item_A; p_section := ""; p_state := Finished |} 11;
      rounds := 2;
      mlog := (map Started (seq 0 10) ++ [Slept 1; Slept 2; Started 10; Slept 1])%list |}).
Proof. vm_compute. reflexivity. Qed.

(** A worker that never ends keeps the wait loop going for as long as
    there is fuel. *)
Example batch_loop_hangs (fuel : nat) :
  fst (batches fuel (fun _ _ => false) [0] [0] (fresh_pool 1)) = Hung.
Proof.
  cbn [batches skipn firstn batch_size start_all]. unfold mbind at 1. cbn.
  unfold mbind at 1.
  assert (H : forall s, nth_error (pool s) 0
                        = Some {| p_match := item_A; p_section := ""; p_state := Running |} ->
                        fst (wait fuel (fun _ _ => false) [0] s) = Hung).
  { induction fuel as [| fuel IH]; intros s E; [reflexivity |].
    cbn [wait all_not_alive]. unfold mbind, msleep, log, tick, is_alive, mret.
    cbn [pool rounds mlog]. rewrite E. cbn. apply IH. exact E. }
  match goal with |- context [wait fuel _ _ ?s] =>
    specialize (H s eq_refl); destruct (wait fuel (fun _ _ => false) [0] s) as [[u | e |] s']
  end; cbn in H; try discriminate. reflexivity.
Qed.

(** C1 (evaluation at the failing input). On the README of the end-to-end
    example, with the entries A, B and C, the module body starts the three
    workers in the parse loop and then raises on the first [p.start()] of
    the batch loop: it hands no row at all to the table writer, under
    every schedule and whatever the client answers. *)
Theorem three_entries_no_output (fuel : nat) (sched : schedule) (apis : nat -> api) :
  List.length (entries readme_abc) = 3
  /\ fst (main fuel sched apis readme_abc boot) =
     Raised (RuntimeError "threads can only be started once")
  /\ mlog (snd (main fuel sched apis readme_abc boot)) = [Started 0; Started 1; Started 2].
Proof. repeat split. Qed.

(** C2 (evaluation at the failing input). Whatever the README, all that
    the main thread does to its workers is start them: it never sleeps,
    neither in a wait loop nor between batches. On a README of eleven
    entries the eleven workers are started one after the other in the
    parse loop, worker 10 of the second batch with nothing between it and
    the ten of the first, so that more than [batch_size] threads are
    running and none has been waited for when the batch loop raises on
    its first [p.start()]. *)
Theorem all_workers_start_in_parse_loop (fuel : nat) (sched : schedule)
        (apis : nat -> api) :
  (forall readme,
      forallb is_start (mlog (snd (main fuel sched apis readme boot))) = true)
  /\ fst (main fuel sched apis readme_eleven boot) =
     Raised (RuntimeError "threads can only be started once")
  /\ mlog (snd (main fuel sched apis readme_eleven boot)) = map Started (seq 0 11)
  /\ all_running (snd (main fuel sched apis readme_eleven boot))
  /\ batch_size < List.length (pool (snd (main fuel sched apis readme_eleven boot))).
Proof.
  split.
  2:{ remember (main fuel sched apis readme_eleven boot) as r eqn:E.
      vm_compute in E. subst r. cbn [fst snd mlog pool].
      split; [reflexivity |]. split; [reflexivity |].
      split; [repeat constructor | vm_compute; lia]. }
  intros readme. pose proof (main_cases fuel sched apis readme) as H.
  assert (S : forall a j, forallb is_start (map Started (seq a j)) = true).
  { intros a j. revert a. induction j as [| j IH]; intros a; cbn; auto. }
  destruct (main fuel sched apis readme boot) as [[rows | e |] s]; cbn [snd].
  - destruct H as (_ & _ & G). rewrite G. reflexivity.
  - destruct H as [(_ & j & G) | (_ & _ & G)]; rewrite G; apply S.
  - destruct H.
Qed.

(** C3 (the general form of the failure). Whenever the README has at
    least one entry the module body does not end normally: it raises,
    under every schedule and whatever the client answers, and so produces
    no result set. *)
Theorem entries_make_main_raise (fuel : nat) (sched : schedule) (apis : nat -> api)
        (readme : list string) :
  entries readme <> [] ->
  exists e s,
    main fuel sched apis readme boot = (Raised e, s)
    /\ (e = RuntimeError "threads can only be started once"
        \/ exists msg, e = IndexError msg).
Proof.
  intros N. pose proof (main_cases fuel sched apis readme) as H.
  destruct (main fuel sched apis readme boot) as [[rows | e |] s].
  - destruct H as (E & _). contradiction.
  - exists e, s. split; [reflexivity |].
    destruct H as [(X & _) | (X & _)]; auto.
  - destruct H.
Qed.

Lemma entries_make_main_raise_witness :
  exists e s,
    main 1 (fun _ _ => true) (fun _ _ => Date "2024-03-01") readme_abc boot = (Raised e, s)
    /\ (e = RuntimeError "threads can only be started once"
        \/ exists msg, e = IndexError msg).
Proof.
  apply (entries_make_main_raise 1 (fun _ _ => true) (fun _ _ => Date "2024-03-01")
                                 readme_abc).
  discriminate.
Defined.

(* ================================================================== *)
(** * Further properties of the code *)

(** ** [extract_repo], in full *)

(** X1. What [extract_repo] takes for a repository, exactly: the text
    https://github, any one character but a newline, the text com/, an
    owner, a slash, a name, and at most a newline behind it; the result is
    then owner/name, and in every other case the empty string. *)
Theorem extract_repo_nonempty_iff (url r : string) :
  (extract_repo url = r /\ r <> "") <->
  (exists c owner name tail,
      Ascii.eqb c newline = false
      /\ well_formed owner name
      /\ (tail = "" \/ tail = nl)
      /\ url = "https://github" ++ String c ("com/" ++ owner ++ "/" ++ name ++ tail)
      /\ r = owner ++ "/" ++ name).
Proof.
  split.
  - intros [E N]. subst r. revert N. rewrite extract_repo_unfold.
    destruct (strip "https://github" url) as [[| c s2] |] eqn:E1;
      try (intros H; now destruct H).
    destruct (Ascii.eqb c newline) eqn:Hc; cbn [negb]; [intros H; now destruct H |].
    destruct (strip "com/" s2) as [s3 |] eqn:E2; [| intros H; now destruct H].
    cbv zeta.
    destruct (drop_while owner_char s3) as [| c' s'] eqn:E3; [intros H; now destruct H |].
    destruct (truthy (take_while owner_char s3) && Ascii.eqb "/" c'
              && truthy (take_while repo_char s')
              && Re.at_end (drop_while repo_char s')) eqn:E; [| intros H; now destruct H].
    intros _.
    apply andb_prop in E. destruct E as [E He].
    apply andb_prop in E. destruct E as [E Hn].
    apply andb_prop in E. destruct E as [Ho Hs].
    apply Ascii.eqb_eq in Hs. subst c'. apply at_end_cases in He.
    apply strip_some in E1. apply strip_some in E2. subst url s2.
    exists c, (take_while owner_char s3), (take_while repo_char s'),
      (drop_while repo_char s').
    split; [exact Hc |]. split.
    { unfold well_formed. rewrite Ho, Hn, !all_chars_take. auto. }
    split; [exact He |]. split; [| reflexivity].
    pose proof (take_drop owner_char s3) as T3. rewrite E3 in T3.
    pose proof (take_drop repo_char s') as T'.
    change (take_while owner_char s3 ++ "/"
            ++ take_while repo_char s' ++ drop_while repo_char s')
      with (take_while owner_char s3
            ++ String "/" (take_while repo_char s' ++ drop_while repo_char s')).
    now rewrite T', T3.
  - intros (c & owner & name & tail & Hc & (Ho & Hao & Hn & Han) & Ht & -> & ->).
    change (owner ++ "/" ++ name ++ tail) with (owner ++ String "/" (name ++ tail)).
    rewrite (extract_repo_on c owner (name ++ tail) Hc Ho Hao).
    assert (T : take_while repo_char (name ++ tail) = name
                /\ drop_while repo_char (name ++ tail) = tail).
    { destruct Ht as [-> | ->].
      - rewrite append_nil_r. now apply take_while_all.
      - now apply take_while_stop. }
    destruct T as [T D]. rewrite T, D, Hn.
    assert (A : Re.at_end tail = true) by (now apply at_end_cases).
    rewrite A. cbn [andb]. split; [reflexivity |].
    destruct owner; [discriminate | discriminate].
Qed.

(** X2. Anything behind the name that is not a repository character, be
    it a further path segment, a query string or a trailing slash, makes
    [extract_repo] return the empty string; only a single final newline is
    let through. *)
Theorem extract_repo_trailing (owner name : string) (c : ascii) (tail : string) :
  well_formed owner name ->
  repo_char c = false ->
  Re.at_end (String c tail) = false ->
  extract_repo ("https://github.com/" ++ owner ++ "/" ++ name ++ String c tail) = "".
Proof.
  intros (Ho & Hao & Hn & Han) Hc He.
  change ("https://github.com/" ++ owner ++ "/" ++ name ++ String c tail)
    with ("https://github"
          ++ String "." ("com/" ++ owner ++ String "/" (name ++ String c tail))).
  rewrite (extract_repo_on "." owner _ eq_refl Ho Hao).
  destruct (take_while_stop repo_char name c tail Han Hc) as [T D].
  rewrite T, D, He, Hn. reflexivity.
Qed.

Lemma extract_repo_trailing_witness :
  extract_repo ("https://github.com/" ++ "acme" ++ "/" ++ "widget" ++ String "/" "issues") = ""
  /\ extract_repo ("https://github.com/" ++ "acme" ++ "/" ++ "widget" ++ String "?" "tab=readme") = ""
  /\ extract_repo ("https://github.com/" ++ "acme" ++ "/" ++ "widget" ++ String "/" "") = "".
Proof.
  split; [| split].
  - apply (extract_repo_trailing "acme" "widget" "/" "issues"); repeat split.
  - apply (extract_repo_trailing "acme" "widget" "?" "tab=readme"); repeat split.
  - apply (extract_repo_trailing "acme" "widget" "/" ""); repeat split.
Defined.

(* ------------------------------------------------------------------ *)
(** ** The substring tests *)

Lemma prefix_iff (p s : string) : prefix p s = true <-> exists t, s = p ++ t.
Proof.
  revert s. induction p as [| a p IH]; intros s.
  - destruct s; cbn; split; eauto.
  - destruct s as [| b s]; cbn.
    + split; [discriminate | intros [t H]; discriminate].
    + destruct (ascii_dec a b) as [-> | N].
      * rewrite IH. split; intros [t H]; exists t; [now rewrite H | now injection H].
      * split; [discriminate | intros [t H]; injection H as E _; congruence].
Qed.

Lemma contains_step (needle : string) (c : ascii) (hay : string) :
  contains needle (String c hay) =
  if prefix needle (String c hay) then true else contains needle hay.
Proof. reflexivity. Qed.

(** [contains] is Python's [in] on strings: the needle stands somewhere
    in the haystack. *)
Lemma contains_iff (needle hay : string) :
  contains needle hay = true <-> exists pre post, hay = pre ++ needle ++ post.
Proof.
  split.
  - induction hay as [| c hay IH].
    + change (contains needle "") with (if prefix needle "" then true else false).
      destruct (prefix needle "") eqn:P; [| discriminate].
      intros _. apply prefix_iff in P. destruct P as [t P]. exists "", t. exact P.
    + rewrite contains_step. destruct (prefix needle (String c hay)) eqn:P.
      * intros _. apply prefix_iff in P. destruct P as [t P]. exists "", t. exact P.
      * intros H. destruct (IH H) as (pre & post & E).
        exists (String c pre), post. cbn. now rewrite E.
  - intros (pre & post & ->). induction pre as [| c pre IH].
    + cbn [append].
      assert (P : prefix needle (needle ++ post) = true) by (apply prefix_iff; eauto).
      destruct (needle ++ post);
        [change (contains needle "") with (if prefix needle "" then true else false)
        | rewrite contains_step]; now rewrite P.
    + cbn [append]. rewrite contains_step.
      destruct (prefix needle _); [reflexivity | exact IH].
Qed.

(** X3. The flags of a row: github is set exactly when github.com stands
    somewhere in the url, cran exactly when cran.r-project.org does; where
    in the url does not matter, nor what else the url is. This is so in
    every row a worker stores. *)
Theorem flags_iff (g : api) (m : Re.match_object) (sec : string) (r : row) :
  fst (run g m sec wstart) = Done r ->
  (github r = true <->
   exists pre post, Re.group m 2 = pre ++ "github.com" ++ post)
  /\ (cran r = true <->
      exists pre post, Re.group m 2 = pre ++ "cran.r-project.org" ++ post).
Proof.
  intros H. destruct (run_row g m sec r H) as (_ & _ & _ & _ & Hg & Hc & _).
  rewrite Hg, Hc. split; apply contains_iff.
Qed.

Lemma flags_iff_witness :
  exists pre post,
    Re.group item_mirror 2 = pre ++ "cran.r-project.org" ++ post.
Proof.
  destruct (flags_iff (fun _ => Date "2024-03-01") item_mirror "R"
                      (row_of item_mirror "R" "2024-03-01") eq_refl) as [_ [H _]].
  apply H. reflexivity.
Defined.
(* ------------------------------------------------------------------ *)
(** ** [get_last_commit], in full *)

(** X4. What [get_last_commit] ends with and how many lookups it makes:
    it stops at the first of its three lookups whose answer is neither
    status 403 nor a rate limit with a reset time in seconds. It returns
    the date when that answer is one and the empty string when it is
    status 404, another exception, or another status whose error carries a
    dict; it raises, out of its handler, on a rate limit whose reset time
    is a datetime or cannot be read, and on another status whose error
    carries no dict. When all three answers are transient it returns the
    empty string after the third. *)
Theorem get_last_commit_result (g : api) (repo : string) :
  truthy repo = true ->
  match first_final g 0 max_retries with
  | Some k =>
      k < max_retries
      /\ fst (get_last_commit g repo wstart) = answer (g k)
      /\ calls (snd (get_last_commit g repo wstart)) = S k
  | None =>
      fst (get_last_commit g repo wstart) = Done ""
      /\ calls (snd (get_last_commit g repo wstart)) = max_retries
  end.
Proof.
  intros named. rewrite (get_last_commit_spec g repo named).
  destruct (first_final g 0 max_retries) as [k |] eqn:F; cbn [fst snd calls].
  - split; [| auto]. destruct (first_final_bounds g _ _ _ F) as (B & _). lia.
  - auto.
Qed.

Lemma get_last_commit_result_witness :
  fst (get_last_commit
         (fun k => match k with
                   | 0 => GithubError 403 false
                   | 1 => RateLimitExceeded (Seconds 1000) 980
                   | _ => Date "2024-03-01"
                   end) "acme/widget" wstart) = Done "2024-03-01"
  /\ fst (get_last_commit
            (fun k => match k with
                      | 0 => GithubError 403 false
                      | _ => GithubError 500 false
                      end) "acme/widget" wstart) = Failed AttributeError
  /\ fst (get_last_commit
            (fun k => match k with
                      | 0 => GithubError 403 false
                      | _ => RateLimitExceeded NoCore 980
                      end) "acme/widget" wstart) = Failed AttributeError.
Proof.
  split; [| split].
  - apply (get_last_commit_result
             (fun k => match k with
                       | 0 => GithubError 403 false
                       | 1 => RateLimitExceeded (Seconds 1000) 980
                       | _ => Date "2024-03-01"
                       end) "acme/widget" eq_refl).
  - apply (get_last_commit_result
             (fun k => match k with
                       | 0 => GithubError 403 false
                       | _ => GithubError 500 false
                       end) "acme/widget" eq_refl).
  - apply (get_last_commit_result
             (fun k => match k with
                       | 0 => GithubError 403 false
                       | _ => RateLimitExceeded NoCore 980
                       end) "acme/widget" eq_refl).
Defined.

(** X5. What [get_last_commit] does on the way: for each lookup it makes,
    in order, the lookup and then the reaction to its answer. After a rate
    limit that is the query for the reset time and, only when the reset
    time is a number of seconds, the sleep computed from it; after status
    403 at lookup k (counted from 0, whatever the earlier failures were)
    the backoff sleep of 2^k seconds; after any other answer nothing. *)
Theorem get_last_commit_trace (g : api) (repo : string) :
  truthy repo = true ->
  trace (snd (get_last_commit g repo wstart)) =
  flat_map (fun k => Lookup repo :: reaction k (g k))
           (seq 0 (calls (snd (get_last_commit g repo wstart)))).
Proof.
  intros named. rewrite (get_last_commit_spec g repo named).
  destruct (first_final g 0 max_retries) as [k |]; reflexivity.
Qed.

Lemma get_last_commit_trace_witness :
  trace (snd (get_last_commit
                (fun k => match k with
                          | 0 => RateLimitExceeded (Seconds 1000) 980
                          | 1 => GithubError 403 false
                          | _ => RateLimitExceeded Datetime 990
                          end) "acme/widget" wstart)) =
  [Lookup "acme/widget"; RateLimitQuery; Sleep 60;
   Lookup "acme/widget"; Sleep 2;
   Lookup "acme/widget"; RateLimitQuery].
Proof.
  rewrite (get_last_commit_trace
             (fun k => match k with
                       | 0 => RateLimitExceeded (Seconds 1000) 980
                       | 1 => GithubError 403 false
                       | _ => RateLimitExceeded Datetime 990
                       end) "acme/widget" eq_refl).
  vm_compute. reflexivity.
Defined.

(** X6. A worker whose url resolves to a repository sleeps its tenth of
    a second and then does what [get_last_commit] does for that
    repository; it stores the row with the date [get_last_commit] returns,
    and raises what [get_last_commit] raises. This holds also when the url
    contains cran.r-project.org: the placeholder date is for urls without
    a repository only. *)
Theorem run_with_repo (g : api) (m : Re.match_object) (sec : string) :
  truthy (extract_repo (Re.group m 2)) = true ->
  fst (run g m sec wstart) =
  wres_map (row_of m sec) (fst (get_last_commit g (extract_repo (Re.group m 2)) wstart))
  /\ (forall r,
         fst (run g m sec wstart) = Done r ->
         fst (get_last_commit g (extract_repo (Re.group m 2)) wstart)
         = Done (last_commit r))
  /\ trace (snd (run g m sec wstart)) =
     Sleep 0.1 :: trace (snd (get_last_commit g (extract_repo (Re.group m 2)) wstart))
  /\ calls (snd (run g m sec wstart)) =
     calls (snd (get_last_commit g (extract_repo (Re.group m 2)) wstart)).
Proof.
  intros H. rewrite run_spec, H. cbn [negb]. rewrite andb_false_r. cbv zeta.
  cbn [fst snd calls trace]. split; [reflexivity |]. split; [| split; reflexivity].
  intros r.
  destruct (fst (get_last_commit g (extract_repo (Re.group m 2)) wstart)) as [d | e];
    [| discriminate].
  cbn [wres_map]. intros E. injection E as <-. reflexivity.
Qed.

Example rex_item_mirror : Re.rmatch rex (Re.subject item_mirror) = Some item_mirror.
Proof. reflexivity. Qed.

Lemma run_with_repo_witness :
  fst (run (fun _ => Date "2024-03-01") item_mirror "R" wstart)
  = Done {| project := "M"; section := "R"; last_commit := "2024-03-01";
            url := "https://github.com/cran/cran.r-project.org";
            description := "mirror";
            github := true; cran := true; repo := "cran/cran.r-project.org" |}.
Proof.
  destruct (run_with_repo (fun _ => Date "2024-03-01") item_mirror "R" eq_refl)
    as (H & _).
  rewrite H. reflexivity.
Defined.
(* ------------------------------------------------------------------ *)
(** ** The patterns of the parse loop *)

Lemma exec_star (i : Re.item) (r : Re.regex) (pos : nat) (s : string) (m : Re.marks) :
  Re.exec (Re.Star i :: r) pos s m = Re.greedy i (Re.exec r) pos s m.
Proof. reflexivity. Qed.

(** A repetition of [.] before the end of the pattern takes the rest of
    the line. *)
Lemma exec_rest_of_line (g : nat) (pos : nat) (s : string) (m : Re.marks) :
  Re.exec [Re.Star Re.Any; Re.Close g; Re.Eol] pos s m =
  if Re.at_end (drop_while (Re.accepts Re.Any) s)
  then Some (Re.close_group g (pos + String.length (take_while (Re.accepts Re.Any) s)) m)
  else None.
Proof.
  rewrite exec_star, ReFacts.greedy_run.
  - rewrite ReFacts.exec_close, ReFacts.exec_eol. reflexivity.
  - intros c s0 p0 m0 H. rewrite ReFacts.exec_close, ReFacts.exec_eol.
    cbn [Re.accepts Re.at_end] in *.
    destruct s0; [| reflexivity].
    destruct (Ascii.eqb c newline); [discriminate | reflexivity].
Qed.

Lemma substring_prefix (b c : string) : substring 0 (String.length b) (b ++ c) = b.
Proof. exact (substring_append "" b c). Qed.

(** [ret] on a line: the longest run of #, a blank, and the rest of the
    line up to its end; group 1 spans the run, group 2 the rest. *)
Lemma rmatch_ret (line : string) :
  Re.rmatch ret line =
  match drop_while (Re.accepts (Re.Lit "#")) line with
  | String c rest =>
      if truthy (take_while (Re.accepts (Re.Lit "#")) line) && Ascii.eqb " " c
         && Re.at_end (drop_while (Re.accepts Re.Any) rest)
      then
        let h := String.length (take_while (Re.accepts (Re.Lit "#")) line) in
        Some {| Re.subject := line;
                Re.spans :=
                  [(2, (S h, S h + String.length (take_while (Re.accepts Re.Any) rest)));
                   (1, (0, h))] |}
      else None
  | EmptyString => None
  end.
Proof.
  unfold Re.rmatch, ret.
  rewrite ReFacts.exec_bol. cbn [Nat.eqb]. rewrite ReFacts.exec_open, ReFacts.exec_plus.
  2:{ intros c s0 p0 m0 H. rewrite ReFacts.exec_close, ReFacts.exec_one.
      cbn [Re.accepts] in *. apply Ascii.eqb_eq in H. subst c. reflexivity. }
  destruct (truthy (take_while (Re.accepts (Re.Lit "#")) line)); cbn [andb];
    [| destruct (drop_while (Re.accepts (Re.Lit "#")) line); reflexivity].
  rewrite ReFacts.exec_close, ReFacts.exec_one.
  destruct (drop_while (Re.accepts (Re.Lit "#")) line) as [| c rest]; [reflexivity |].
  cbn [Re.accepts]. destruct (Ascii.eqb " " c); cbn [andb]; [| reflexivity].
  rewrite ReFacts.exec_open, exec_rest_of_line.
  destruct (Re.at_end (drop_while (Re.accepts Re.Any) rest)); reflexivity.
Qed.

Lemma take_while_hashes (n : nat) (c : ascii) (rest : string) :
  Ascii.eqb "#" c = false ->
  take_while (Re.accepts (Re.Lit "#")) (hashes n ++ String c rest) = hashes n
  /\ drop_while (Re.accepts (Re.Lit "#")) (hashes n ++ String c rest) = String c rest.
Proof.
  intros H. apply take_while_stop; [| exact H].
  induction n as [| n IH]; cbn; [reflexivity | exact IH].
Qed.

Lemma length_hashes (n : nat) : String.length (hashes n) = n.
Proof. induction n as [| n IH]; cbn; [reflexivity | now rewrite IH]. Qed.

(** X7. A heading line, that is one or more #, a blank and a title
    without a newline, with or without the newline that ends the line, is
    not taken for a list item, and [ret] gives back its run of # as group 1
    and its title as group 2. *)
Theorem heading_round_trip (n : nat) (title tail : string) :
  all_chars (Re.accepts Re.Any) title = true ->
  tail = "" \/ tail = nl ->
  Re.rmatch rex (hashes (S n) ++ " " ++ title ++ tail) = None
  /\ exists m,
      Re.rmatch ret (hashes (S n) ++ " " ++ title ++ tail) = Some m
      /\ Re.group m 1 = hashes (S n)
      /\ Re.group m 2 = title
      /\ heading_level (hashes (S n) ++ " " ++ title ++ tail) = Some (S n).
Proof.
  intros Ht Htail.
  assert (R : Re.rmatch rex (hashes (S n) ++ " " ++ title ++ tail) = None) by reflexivity.
  split; [exact R |].
  assert (T : take_while (Re.accepts Re.Any) (title ++ tail) = title
              /\ drop_while (Re.accepts Re.Any) (title ++ tail) = tail).
  { destruct Htail as [-> | ->].
    - rewrite append_nil_r. now apply take_while_all.
    - now apply take_while_stop. }
  destruct T as [T D].
  destruct (take_while_hashes (S n) " " (title ++ tail) eq_refl) as [TH DH].
  assert (E : Re.rmatch ret (hashes (S n) ++ " " ++ title ++ tail) =
              Some {| Re.subject := hashes (S n) ++ " " ++ title ++ tail;
                      Re.spans := [(2, (S (S n), S (S n) + String.length title));
                                   (1, (0, S n))] |}).
  { rewrite rmatch_ret.
    change (hashes (S n) ++ " " ++ title ++ tail)
      with (hashes (S n) ++ String " " (title ++ tail)).
    rewrite DH, TH, T, D. cbv zeta. rewrite length_hashes.
    assert (A : Re.at_end tail = true) by (now apply at_end_cases).
    rewrite A. reflexivity. }
  assert (G1 : Re.group {| Re.subject := hashes (S n) ++ " " ++ title ++ tail;
                           Re.spans := [(2, (S (S n), S (S n) + String.length title));
                                        (1, (0, S n))] |} 1 = hashes (S n)).
  { unfold Re.group. cbn [Re.spans Re.assoc Nat.eqb Re.subject].
    rewrite Nat.sub_0_r. rewrite <- (length_hashes (S n)) at 1.
    apply substring_prefix. }
  eexists. split; [exact E |]. split; [exact G1 |]. split.
  - unfold Re.group. cbn [Re.spans Re.assoc Nat.eqb Re.subject].
    replace (S (S n) + String.length title - S (S n)) with (String.length title) by lia.
    replace (S (S n)) with (String.length (hashes (S n) ++ " "))
      by (rewrite length_append, length_hashes; cbn; lia).
    rewrite <- (append_assoc (hashes (S n)) " " (title ++ tail)).
    apply substring_append.
  - unfold heading_level. rewrite R, E, G1. now rewrite length_hashes.
Qed.

Lemma heading_round_trip_witness :
  exists m,
    Re.rmatch ret (hashes 2 ++ " " ++ "Python libs" ++ nl) = Some m
    /\ Re.group m 1 = hashes 2
    /\ Re.group m 2 = "Python libs"
    /\ heading_level (hashes 2 ++ " " ++ "Python libs" ++ nl) = Some 2.
Proof.
  apply (heading_round_trip 1 "Python libs" nl); [reflexivity | now right].
Defined.

Lemma all_chars_app (p : ascii -> bool) (a b : string) :
  all_chars p (a ++ b) = all_chars p a && all_chars p b.
Proof. induction a as [| c a IH]; cbn; [reflexivity | now rewrite IH, andb_assoc]. Qed.

Lemma strip_none (p s : string) : prefix p s = false -> strip p s = None.
Proof.
  intros H. destruct (strip p s) as [s' |] eqn:E; [| reflexivity].
  apply strip_prefix in E. congruence.
Qed.

Lemma prefix_append_tail (n s tail : string) :
  all_chars (Re.accepts Re.Any) n = true ->
  tail = "" \/ tail = nl ->
  prefix n (s ++ tail) = prefix n s.
Proof.
  intros Hn [-> | ->]; [now rewrite append_nil_r |].
  revert s. induction n as [| a n IH]; intros s.
  - destruct s; reflexivity.
  - cbn in Hn. apply andb_prop in Hn. destruct Hn as [Ha Hn].
    destruct s as [| b s]; cbn.
    + destruct (ascii_dec a _) as [-> | N]; [discriminate | reflexivity].
    + destruct (ascii_dec a b); [now apply IH | reflexivity].
Qed.

Lemma contains_append_tail (n s tail : string) :
  all_chars (Re.accepts Re.Any) n = true ->
  tail = "" \/ tail = nl ->
  contains n (s ++ tail) = contains n s.
Proof.
  intros Hn [-> | ->]; [now rewrite append_nil_r |].
  induction s as [| c s IH].
  - cbn [append]. unfold nl. rewrite contains_step.
    change (String newline "") with ("" ++ nl).
    rewrite (prefix_append_tail n "" nl Hn (or_intror eq_refl)).
    change (contains n "") with (if prefix n "" then true else false).
    destruct (prefix n ""); reflexivity.
  - cbn [append]. rewrite !contains_step.
    change (String c (s ++ nl)) with (String c s ++ nl).
    rewrite (prefix_append_tail n (String c s) nl Hn (or_intror eq_refl)), IH.
    reflexivity.
Qed.

Module GreedyFacts.
Import Re.

(** A repetition may take a run of accepted characters when it finds a
    match from behind the run. *)
Lemma greedy_app (i : item) (k : nat -> string -> marks -> option marks)
      (a b : string) (pos : nat) (m r : marks) :
  all_chars (accepts i) a = true ->
  greedy i k (pos + String.length a) b m = Some r ->
  greedy i k pos (a ++ b) m = Some r.
Proof.
  revert pos. induction a as [| c a IH]; intros pos Ha H; cbn in *.
  - now rewrite Nat.add_0_r in H.
  - apply andb_prop in Ha. destruct Ha as [Hc Ha]. rewrite Hc.
    rewrite (IH (S pos) Ha); [reflexivity |].
    now rewrite Nat.add_succ_r in H.
Qed.

(** When the rest of the pattern starts with the text [n], a repetition
    finds nothing in a string that does not contain [n]. *)
Lemma greedy_none (i : item) (k : nat -> string -> marks -> option marks) (n : string) :
  (forall pos s m, prefix n s = false -> k pos s m = None) ->
  forall b pos m, contains n b = false -> greedy i k pos b m = None.
Proof.
  intros needs. induction b as [| c b IH]; intros pos m H.
  - cbn. apply needs.
    change (contains n "") with (if prefix n "" then true else false) in H.
    destruct (prefix n ""); [discriminate | reflexivity].
  - rewrite contains_step in H.
    destruct (prefix n (String c b)) eqn:P; [discriminate |].
    cbn. rewrite (IH (S pos) m H), (needs pos (String c b) m P).
    destruct (accepts i c); reflexivity.
Qed.

Lemma greedy_step (i : item) (k : nat -> string -> marks -> option marks)
      (c : ascii) (s : string) (pos : nat) (m : marks) :
  greedy i k (S pos) s m = None ->
  greedy i k pos (String c s) m = k pos (String c s) m.
Proof. intros H. cbn. rewrite H. destruct (accepts i c); reflexivity. Qed.

Lemma greedy_stop (i : item) (k : nat -> string -> marks -> option marks)
      (c : ascii) (s : string) (pos : nat) (m : marks) :
  accepts i c = false ->
  greedy i k pos (String c s) m = k pos (String c s) m.
Proof. intros H. cbn. now rewrite H. Qed.

(** A literal text behind a group needs that text. *)
Lemma close_lit_needs (g : nat) (n : string) (r : regex) (pos : nat) (s : string)
      (m : marks) :
  prefix n s = false -> exec (Close g :: lit n ++ r)%list pos s m = None.
Proof.
  intros H. rewrite ReFacts.exec_close, ReFacts.exec_lit.
  now rewrite (strip_none n s H).
Qed.

Lemma close_lit_here (g : nat) (n : string) (r : regex) (pos : nat) (s : string)
      (m : marks) :
  exec (Close g :: lit n ++ r)%list pos (n ++ s) m =
  exec r (pos + String.length n) s (close_group g pos m).
Proof.
  rewrite ReFacts.exec_close, ReFacts.exec_lit.
  assert (E : strip n (n ++ s) = Some s) by (now apply strip_some).
  now rewrite E.
Qed.

End GreedyFacts.


(** [rex_desc] takes the rest of the line for group 3. *)
Lemma exec_rex_desc (pos : nat) (desc tail : string) (m : Re.marks) :
  all_chars (Re.accepts Re.Any) desc = true ->
  tail = "" \/ tail = nl ->
  Re.exec rex_desc pos (desc ++ tail) m =
  Some (Re.close_group 3 (pos + String.length desc) (Re.open_group 3 pos m)).
Proof.
  intros Hd Ht. unfold rex_desc. rewrite ReFacts.exec_open, exec_rest_of_line.
  assert (T : take_while (Re.accepts Re.Any) (desc ++ tail) = desc
              /\ drop_while (Re.accepts Re.Any) (desc ++ tail) = tail).
  { destruct Ht as [-> | ->].
    - rewrite append_nil_r. now apply take_while_all.
    - now apply take_while_stop. }
  destruct T as [T D]. rewrite T, D.
  assert (A : Re.at_end tail = true) by (now apply at_end_cases).
  now rewrite A.
Qed.

(** [rex_url] takes the text up to the last [) - ] for group 2. *)
Lemma exec_rex_url (pos : nat) (url desc tail : string) (m : Re.marks) :
  all_chars (Re.accepts Re.Any) url = true ->
  all_chars (Re.accepts Re.Any) desc = true ->
  contains ") - " desc = false ->
  tail = "" \/ tail = nl ->
  Re.exec rex_url pos (url ++ ") - " ++ desc ++ tail) m =
  Some (Re.close_group 3 (pos + String.length url + 4 + String.length desc)
          (Re.open_group 3 (pos + String.length url + 4)
             (Re.close_group 2 (pos + String.length url) (Re.open_group 2 pos m)))).
Proof.
  intros Hu Hd Hc Ht. unfold rex_url. rewrite ReFacts.exec_open, exec_star.
  apply GreedyFacts.greedy_app; [exact Hu |].
  change (") - " ++ desc ++ tail) with (String ")" (" - " ++ desc ++ tail)).
  rewrite GreedyFacts.greedy_step.
  - change (String ")" (" - " ++ desc ++ tail)) with (") - " ++ desc ++ tail).
    rewrite GreedyFacts.close_lit_here. now apply exec_rex_desc.
  - apply (GreedyFacts.greedy_none Re.Any _ ") - ").
    + intros p s m0 H. now apply GreedyFacts.close_lit_needs.
    + change (" - " ++ desc ++ tail)
        with (String " " (String "-" (String " " (desc ++ tail)))).
      rewrite !contains_step. cbn [prefix ascii_dec ascii_rec ascii_rect].
      change (contains ") - " (desc ++ tail) = false).
      now rewrite contains_append_tail.
Qed.

(** [rex_name] takes the text up to the last [](] for group 1. *)
Lemma exec_rex_name (pos : nat) (name url desc tail : string) (m : Re.marks) :
  all_chars (Re.accepts Re.Any) name = true ->
  all_chars (Re.accepts Re.Any) url = true ->
  all_chars (Re.accepts Re.Any) desc = true ->
  contains "](" (url ++ ") - " ++ desc) = false ->
  contains ") - " desc = false ->
  tail = "" \/ tail = nl ->
  Re.exec rex_name pos (name ++ "](" ++ url ++ ") - " ++ desc ++ tail) m =
  Some (Re.close_group 3 (pos + String.length name + 2 + String.length url + 4
                          + String.length desc)
          (Re.open_group 3 (pos + String.length name + 2 + String.length url + 4)
             (Re.close_group 2 (pos + String.length name + 2 + String.length url)
                (Re.open_group 2 (pos + String.length name + 2)
                   (Re.close_group 1 (pos + String.length name)
                      (Re.open_group 1 pos m)))))).
Proof.
  intros Hn Hu Hd H1 H2 Ht. unfold rex_name. rewrite ReFacts.exec_open, exec_star.
  apply GreedyFacts.greedy_app; [exact Hn |].
  change ("](" ++ url ++ ") - " ++ desc ++ tail)
    with (String "]" ("(" ++ url ++ ") - " ++ desc ++ tail)).
  rewrite GreedyFacts.greedy_step.
  - change (String "]" ("(" ++ url ++ ") - " ++ desc ++ tail))
      with ("](" ++ url ++ ") - " ++ desc ++ tail).
    rewrite GreedyFacts.close_lit_here. now apply exec_rex_url.
  - apply (GreedyFacts.greedy_none Re.Any _ "](").
    + intros p s m0 H. now apply GreedyFacts.close_lit_needs.
    + change ("(" ++ url ++ ") - " ++ desc ++ tail)
        with (String "(" (url ++ ") - " ++ desc ++ tail)).
      rewrite contains_step. cbn [prefix ascii_dec ascii_rec ascii_rect].
      change (contains "](" (url ++ ") - " ++ desc ++ tail) = false).
      replace (url ++ ") - " ++ desc ++ tail) with ((url ++ ") - " ++ desc) ++ tail)
        by (rewrite append_assoc; reflexivity).
      now rewrite contains_append_tail.
Qed.

Lemma substring_at (a b c : string) (p n : nat) :
  p = String.length a -> n = String.length b -> substring p n (a ++ b ++ c) = b.
Proof. intros -> ->. apply substring_append. Qed.

(** X8. A list item line, that is white space or none, then
    [- [name](url) - description] and the end of the line, is matched by
    [rex] with the name, the url and the description as groups 1, 2 and 3,
    when none of the three has a newline, the text [](] does not come
    again behind the name and the text [) - ] does not come in the
    description. The name may hold any other text, brackets too. *)
Theorem item_round_trip (indent name url desc tail : string) :
  all_chars Re.space indent = true ->
  all_chars (Re.accepts Re.Any) name = true ->
  all_chars (Re.accepts Re.Any) url = true ->
  all_chars (Re.accepts Re.Any) desc = true ->
  contains "](" (url ++ ") - " ++ desc) = false ->
  contains ") - " desc = false ->
  tail = "" \/ tail = nl ->
  exists m,
    Re.rmatch rex (indent ++ "- [" ++ name ++ "](" ++ url ++ ") - " ++ desc ++ tail)
    = Some m
    /\ Re.group m 1 = name
    /\ Re.group m 2 = url
    /\ Re.group m 3 = desc.
Proof.
  intros Hi Hn Hu Hd H1 H2 Ht.
  set (line := indent ++ "- [" ++ name ++ "](" ++ url ++ ") - " ++ desc ++ tail).
  assert (E : Re.exec rex 0 line Re.no_marks =
              Some (Re.close_group 3 (String.length indent + 3 + String.length name + 2
                                      + String.length url + 4 + String.length desc)
                      (Re.open_group 3 (String.length indent + 3 + String.length name + 2
                                        + String.length url + 4)
                         (Re.close_group 2 (String.length indent + 3 + String.length name
                                            + 2 + String.length url)
                            (Re.open_group 2 (String.length indent + 3
                                              + String.length name + 2)
                               (Re.close_group 1 (String.length indent + 3
                                                  + String.length name)
                                  (Re.open_group 1 (String.length indent + 3)
                                     Re.no_marks))))))).
  { change rex with (Re.Bol :: Re.Star (Re.Class Re.space) :: Re.lit "- [" ++ rex_name)%list.
    rewrite ReFacts.exec_bol. cbn [Nat.eqb]. rewrite exec_star. subst line.
    apply GreedyFacts.greedy_app; [exact Hi |].
    change ("- [" ++ name ++ "](" ++ url ++ ") - " ++ desc ++ tail)
      with (String "-" (" [" ++ name ++ "](" ++ url ++ ") - " ++ desc ++ tail)).
    rewrite GreedyFacts.greedy_stop by reflexivity.
    change (String "-" (" [" ++ name ++ "](" ++ url ++ ") - " ++ desc ++ tail))
      with ("- [" ++ name ++ "](" ++ url ++ ") - " ++ desc ++ tail).
    rewrite ReFacts.exec_lit.
    assert (S : strip "- [" ("- [" ++ name ++ "](" ++ url ++ ") - " ++ desc ++ tail)
                = Some (name ++ "](" ++ url ++ ") - " ++ desc ++ tail))
      by (now apply strip_some).
    rewrite S. now apply exec_rex_name. }
  unfold Re.rmatch. rewrite E. eexists. split; [reflexivity |].
  unfold Re.group.
  cbn [Re.spans Re.subject Re.closed Re.opened Re.close_group Re.open_group
       Re.assoc Nat.eqb Re.no_marks].
  split; [| split].
  - replace line with ((indent ++ "- [") ++ name ++ "](" ++ url ++ ") - " ++ desc ++ tail)
      by (subst line; rewrite !append_assoc; reflexivity).
    apply substring_at.
    + rewrite length_append. reflexivity.
    + lia.
  - replace line with ((indent ++ "- [" ++ name ++ "](") ++ url ++ ") - " ++ desc ++ tail)
      by (subst line; rewrite ?append_assoc; cbn [append]; rewrite ?append_assoc;
          reflexivity).
    apply substring_at.
    + repeat first [rewrite length_append | progress cbn [String.length append]]. lia.
    + lia.
  - replace line
      with ((indent ++ "- [" ++ name ++ "](" ++ url ++ ") - ") ++ desc ++ tail)
      by (subst line; rewrite ?append_assoc; cbn [append]; rewrite ?append_assoc;
          cbn [append]; rewrite ?append_assoc; reflexivity).
    apply substring_at.
    + repeat first [rewrite length_append | progress cbn [String.length append]]. lia.
    + lia.
Qed.

Lemma item_round_trip_witness :
  exists m,
    Re.rmatch rex
      ("  " ++ "- [" ++ "num[py]" ++ "](" ++ "https://github.com/numpy/numpy"
       ++ ") - " ++ "Arrays (fast), and more" ++ nl) = Some m
    /\ Re.group m 1 = "num[py]"
    /\ Re.group m 2 = "https://github.com/numpy/numpy"
    /\ Re.group m 3 = "Arrays (fast), and more".
Proof.
  apply (item_round_trip "  " "num[py]" "https://github.com/numpy/numpy"
                         "Arrays (fast), and more" nl);
    try reflexivity.
  now right.
Defined.

(** A description that holds the text [) - ] moves the border: group 2
    runs up to the last [) - ] of the line. *)
Example item_description_with_separator :
  option_map (fun m => (Re.group m 2, Re.group m 3))
             (Re.rmatch rex ("- [np](https://github.com/numpy/numpy) - "
                             ++ "Arrays (fast) - and more" ++ nl))
  = Some ("https://github.com/numpy/numpy) - Arrays (fast", "and more").
Proof. reflexivity. Qed.

(* ------------------------------------------------------------------ *)
(** ** The parse loop: headings and entries *)

(** [n] pops: the first titles stay, when there are [n] to pop. *)
Lemma pop_times_spec (n : nat) (l : list string) (s : mstate) :
  pop_times n l s =
  if (n <=? List.length l)%nat
  then (Normal (firstn (List.length l - n) l), s)
  else (Raised (IndexError "pop from empty list"), s).
Proof.
  revert l. induction n as [| n IH]; intros l; cbn [pop_times].
  - cbn. now rewrite Nat.sub_0_r, firstn_all.
  - unfold mbind, pop. destruct l as [| x l]; [reflexivity |].
    unfold mret. rewrite IH.
    assert (L : List.length (removelast (x :: l)) = List.length l).
    { rewrite removelast_firstn_len, length_firstn. cbn. lia. }
    rewrite L. cbn [List.length].
    destruct (n <=? List.length l)%nat eqn:E.
    + apply Nat.leb_le in E.
      replace (S n <=? S (List.length l))%nat with true
        by (symmetry; apply Nat.leb_le; lia).
      rewrite removelast_firstn_len, firstn_firstn. cbn [List.length].
      f_equal. f_equal. f_equal. lia.
    + apply Nat.leb_gt in E.
      replace (S n <=? S (List.length l))%nat with false
        by (symmetry; apply Nat.leb_gt; lia).
      reflexivity.
Qed.

(** The run of # of a heading is not empty. *)
Lemma ret_level_positive (line : string) (m : Re.match_object) :
  Re.rmatch ret line = Some m -> 1 <= String.length (Re.group m 1).
Proof.
  rewrite rmatch_ret.
  destruct (drop_while (Re.accepts (Re.Lit "#")) line) as [| c rest] eqn:D;
    [discriminate |].
  destruct (truthy (take_while (Re.accepts (Re.Lit "#")) line)) eqn:T;
    cbn [andb]; [| discriminate].
  destruct (Ascii.eqb " " c && Re.at_end (drop_while (Re.accepts Re.Any) rest));
    [| discriminate].
  cbv zeta. intros [= <-]. unfold Re.group.
  cbn [Re.spans Re.assoc Nat.eqb Re.subject]. rewrite Nat.sub_0_r.
  pose proof (take_drop (Re.accepts (Re.Lit "#")) line) as E.
  rewrite <- E at 2. rewrite substring_prefix.
  destruct (take_while (Re.accepts (Re.Lit "#")) line); [discriminate | cbn; lia].
Qed.

(** A heading line in the parse loop. *)
Lemma parse_line_heading (line : string) (m : Re.match_object) (ps : parser)
      (s : mstate) :
  Re.rmatch rex line = None ->
  Re.rmatch ret line = Some m ->
  parse_line line ps s =
  let h := String.length (Re.group m 1) in
  if (last_head_level ps <? h)%nat then
    (Normal {| m_titles := (m_titles ps ++ [Re.group m 2])%list;
               last_head_level := h; projects := projects ps |}, s)
  else if (last_head_level ps - h + 1 <=? List.length (m_titles ps))%nat then
    (Normal {| m_titles :=
                 (firstn (List.length (m_titles ps) - (last_head_level ps - h + 1))
                         (m_titles ps) ++ [Re.group m 2])%list;
               last_head_level := h; projects := projects ps |}, s)
  else (Raised (IndexError "pop from empty list"), s).
Proof.
  intros R H. unfold parse_line. rewrite R, H. cbv zeta. unfold mbind.
  destruct (last_head_level ps <? String.length (Re.group m 1))%nat; [reflexivity |].
  rewrite pop_times_spec.
  destruct (last_head_level ps - String.length (Re.group m 1) + 1
            <=? List.length (m_titles ps))%nat; reflexivity.
Qed.

(** A heading that lies at most one level below the last one, on a stack
    with one title for each level. *)
Lemma parse_line_heading_nested (line : string) (m : Re.match_object) (ps : parser)
        (s : mstate) :
  Re.rmatch rex line = None ->
  Re.rmatch ret line = Some m ->
  List.length (m_titles ps) = last_head_level ps ->
  String.length (Re.group m 1) <= S (last_head_level ps) ->
  parse_line line ps s =
  (Normal {| m_titles :=
               (firstn (String.length (Re.group m 1) - 1) (m_titles ps)
                ++ [Re.group m 2])%list;
             last_head_level := String.length (Re.group m 1);
             projects := projects ps |}, s).
Proof.
  intros R H I B. rewrite (parse_line_heading line m ps s R H). cbv zeta.
  pose proof (ret_level_positive line m H) as P.
  destruct (last_head_level ps <? String.length (Re.group m 1))%nat eqn:E.
  - apply Nat.ltb_lt in E.
    replace (String.length (Re.group m 1) - 1) with (List.length (m_titles ps)) by lia.
    now rewrite firstn_all.
  - apply Nat.ltb_ge in E.
    replace (last_head_level ps - String.length (Re.group m 1) + 1
             <=? List.length (m_titles ps))%nat with true
      by (symmetry; apply Nat.leb_le; lia).
    replace (List.length (m_titles ps)
             - (last_head_level ps - String.length (Re.group m 1) + 1))
      with (String.length (Re.group m 1) - 1) by lia.
    reflexivity.
Qed.

(** X9. While the title stack has one title for each level down to the
    last heading, a heading of level h that lies at most one level below
    it keeps the titles of the levels above h and puts its own title at
    level h. No thread is touched. *)
Theorem heading_sets_level (line : string) (m : Re.match_object) (ps : parser)
        (s : mstate) :
  Re.rmatch rex line = None ->
  Re.rmatch ret line = Some m ->
  List.length (m_titles ps) = last_head_level ps ->
  String.length (Re.group m 1) <= S (last_head_level ps) ->
  parse_line line ps s =
  (Normal {| m_titles :=
               (firstn (String.length (Re.group m 1) - 1) (m_titles ps)
                ++ [Re.group m 2])%list;
             last_head_level := String.length (Re.group m 1);
             projects := projects ps |}, s).
Proof. exact (parse_line_heading_nested line m ps s). Qed.

Lemma heading_sets_level_witness :
  parse_line ("## R" ++ nl)
             {| m_titles := ["Catalog"; "Python"; "Numerics"]; last_head_level := 3;
                projects := [0; 1] |} boot =
  (Normal {| m_titles := ["Catalog"; "R"]; last_head_level := 2; projects := [0; 1] |},
   boot).
Proof.
  apply (heading_sets_level ("## R" ++ nl)
           {| Re.subject := "## R" ++ nl; Re.spans := [(2, (3, 4)); (1, (0, 2))] |}
           {| m_titles := ["Catalog"; "Python"; "Numerics"]; last_head_level := 3;
              projects := [0; 1] |} boot);
    [reflexivity | reflexivity | reflexivity | cbn; lia].
Defined.

(** X10. A heading that comes back up by more levels than the title
    stack holds titles raises IndexError (pop from empty list), and the
    rest of the file is not read. The stack is that short after a heading
    that went down by more than one level. *)
Theorem heading_underflow (line : string) (rest : list string) (m : Re.match_object)
        (ps : parser) (s : mstate) :
  Re.rmatch rex line = None ->
  Re.rmatch ret line = Some m ->
  String.length (Re.group m 1) <= last_head_level ps ->
  List.length (m_titles ps) < last_head_level ps - String.length (Re.group m 1) + 1 ->
  parse (line :: rest) ps s = (Raised (IndexError "pop from empty list"), s).
Proof.
  intros R H B U. cbn [parse]. unfold mbind.
  rewrite (parse_line_heading line m ps s R H). cbv zeta.
  replace (last_head_level ps <? String.length (Re.group m 1))%nat with false
    by (symmetry; apply Nat.ltb_ge; lia).
  replace (last_head_level ps - String.length (Re.group m 1) + 1
           <=? List.length (m_titles ps))%nat with false
    by (symmetry; apply Nat.leb_gt; lia).
  reflexivity.
Qed.

Lemma heading_underflow_witness :
  parse_line ("## Python" ++ nl) parse_start boot =
  (Normal {| m_titles := ["Python"]; last_head_level := 2; projects := [] |}, boot)
  /\ parse ["# Catalog" ++ nl; "- [A](https://github.com/a/a) - first" ++ nl]
           {| m_titles := ["Python"]; last_head_level := 2; projects := [] |} boot =
     (Raised (IndexError "pop from empty list"), boot).
Proof.
  split; [reflexivity |].
  apply (heading_underflow ("# Catalog" ++ nl) _
           {| Re.subject := "# Catalog" ++ nl; Re.spans := [(2, (2, 9)); (1, (0, 1))] |});
    [reflexivity | reflexivity | cbn; lia | cbn; lia].
Defined.

(** The parse loop on a README whose headings go down one level at a
    time. *)
Lemma parse_nested (lines : list string) (ps : parser) (s : mstate) :
  List.length (m_titles ps) = last_head_level ps ->
  nested (last_head_level ps) lines = true ->
  exists ps' s',
    parse lines ps s = (Normal ps', s')
    /\ List.length (m_titles ps') = last_head_level ps'.
Proof.
  revert ps s. induction lines as [| line lines IH]; intros ps s I N.
  - exists ps, s. split; [reflexivity | exact I].
  - cbn [parse nested] in *. unfold mbind. unfold heading_level in N.
    destruct (Re.rmatch rex line) as [m |] eqn:R.
    + rewrite (parse_line_item line m ps s R). apply IH; assumption.
    + destruct (Re.rmatch ret line) as [m |] eqn:H.
      * apply andb_prop in N. destruct N as [B N]. apply Nat.leb_le in B.
        rewrite (parse_line_heading_nested line m ps s R H I B).
        apply IH; cbn [m_titles last_head_level]; [| exact N].
        pose proof (ret_level_positive line m H) as P.
        rewrite length_app, length_firstn. cbn [List.length]. lia.
      * destruct (parse_line_other line ps s R) as [(ps1 & E & _) | (msg & E)].
        -- assert (E' : parse_line line ps s = (Normal ps, s)).
           { unfold parse_line. rewrite R, H. reflexivity. }
           rewrite E'. apply IH; assumption.
        -- unfold parse_line in E. rewrite R, H in E. discriminate.
Qed.

(** The thread objects of the parse loop, in the order of the entries. *)
Lemma parse_pool (lines : list string) (ps ps' : parser) (s s' : mstate) :
  parse lines ps s = (Normal ps', s') ->
  map p_match (pool s') = (map p_match (pool s) ++ entries lines)%list.
Proof.
  revert ps s. induction lines as [| line lines IH]; intros ps s; cbn [parse entries].
  - unfold mret. intros [= _ <-]. now rewrite app_nil_r.
  - unfold mbind. destruct (Re.rmatch rex line) as [m |] eqn:R.
    + rewrite (parse_line_item line m ps s R). intros H. apply IH in H.
      rewrite H. cbn [pool]. rewrite map_app, <- app_assoc. reflexivity.
    + destruct (parse_line_other line ps s R) as [(ps1 & E & _) | (msg & E)];
        rewrite E; [apply IH | discriminate].
Qed.

(** X11. When the parse loop comes to its end, [projects] holds one
    thread object for each list item of the README, in the order of the
    items, each made from the match of its line and each already running. *)
Theorem parse_projects_in_order (readme : list string) (ps : parser) (s : mstate) :
  parse readme parse_start boot = (Normal ps, s) ->
  projects ps = seq 0 (List.length (entries readme))
  /\ map p_match (pool s) = entries readme
  /\ all_running s.
Proof.
  intros H. pose proof (parse_pool readme parse_start ps boot s H) as P.
  pose proof (parse_spec readme parse_start boot) as Q. rewrite H in Q.
  destruct Q as (R & Pr & _); [constructor |].
  split; [exact Pr |]. split; [exact P | exact R].
Qed.

Lemma parse_projects_in_order_witness :
  exists ps s,
    parse readme_abc parse_start boot = (Normal ps, s)
    /\ projects ps = [0; 1; 2]
    /\ map p_match (pool s) = entries readme_abc.
Proof.
  eexists. eexists. split; [reflexivity |].
  destruct (parse_projects_in_order readme_abc _ _ eq_refl) as (A & B & _).
  split; [exact A | exact B].
Defined.

(** X12. On a README whose headings never go down by more than one
    level at a time the parse loop does not fail: it comes to its end, with
    one title on the stack for each level down to the last heading. *)
Theorem nested_readme_parses (readme : list string) :
  nested 0 readme = true ->
  exists ps s,
    parse readme parse_start boot = (Normal ps, s)
    /\ List.length (m_titles ps) = last_head_level ps.
Proof. intros N. now apply parse_nested. Qed.

Lemma nested_readme_parses_witness :
  exists ps s,
    parse readme_abc parse_start boot = (Normal ps, s)
    /\ List.length (m_titles ps) = last_head_level ps.
Proof. apply (nested_readme_parses readme_abc). reflexivity. Defined.

(** X13. A README without list items, with headings that go down one
    level at a time, gives the empty table: the batch loop has nothing to
    do and the module body ends normally, with no thread made. *)
Theorem readme_without_entries (fuel : nat) (sched : schedule) (apis : nat -> api)
        (readme : list string) :
  nested 0 readme = true ->
  entries readme = [] ->
  main fuel sched apis readme boot = (Normal [], boot).
Proof.
  intros N E. destruct (parse_nested readme parse_start boot eq_refl N)
    as (ps & s & P & _).
  pose proof (parse_spec readme parse_start boot) as Q.
  unfold main, mbind. fold parse_start. rewrite P in *.
  destruct Q as (_ & Pr & L & G & T); [constructor |]. rewrite E in *.
  cbn in Pr, L, G, T. rewrite Pr. cbn.
  destruct s as [pl rd lg]. cbn in *. subst.
  destruct pl; [reflexivity | discriminate].
Qed.

Lemma readme_without_entries_witness :
  main 1 (fun _ _ => true) (fun _ _ => OtherError)
       ["# Catalog" ++ nl; "Some words." ++ nl; "## Python" ++ nl] boot
  = (Normal [], boot).
Proof.
  apply (readme_without_entries 1 (fun _ _ => true) (fun _ _ => OtherError)
           ["# Catalog" ++ nl; "Some words." ++ nl; "## Python" ++ nl]);
    reflexivity.
Defined.

(* ------------------------------------------------------------------ *)
(** ** The batch loop and the result *)

Lemma chunks_concat {A : Type} (step : nat) (c : nat) (l : list A) :
  List.length l <= c * step ->
  List.concat (map (fun k => firstn step (skipn (k * step) l)) (seq 0 c)) = l.
Proof.
  revert l. induction c as [| c IH]; intros l H.
  - destruct l; [reflexivity | cbn in H; lia].
  - cbn [seq map List.concat]. rewrite <- seq_shift, map_map.
    rewrite Nat.mul_0_l. cbn [skipn].
    transitivity (firstn step l ++ skipn step l)%list; [| apply firstn_skipn].
    f_equal.
    transitivity (List.concat
                    (map (fun k => firstn step (skipn (k * step) (skipn step l)))
                         (seq 0 c))).
    + f_equal. apply map_ext. intros k.
      rewrite skipn_skipn. f_equal. f_equal. cbn. lia.
    + apply IH. rewrite length_skipn. cbn in H. lia.
Qed.

(** X14. The batches of the batch loop are consecutive pieces of
    [projects]: put one behind the other they give [projects] back, so
    every project is in exactly one batch, in its place; and every batch
    holds at least one and at most [batch_size] projects. *)
Theorem batches_partition (projects : list nat) :
  List.concat (map (fun i => firstn batch_size (skipn i projects))
                   (range_step (List.length projects) batch_size)) = projects
  /\ Forall (fun i =>
               1 <= List.length (firstn batch_size (skipn i projects)) <= batch_size)
            (range_step (List.length projects) batch_size).
Proof.
  unfold range_step, batch_size. split.
  - rewrite map_map. apply chunks_concat.
    pose proof (Nat.div_mod_eq (List.length projects + 10 - 1) 10) as D.
    pose proof (Nat.mod_upper_bound (List.length projects + 10 - 1) 10) as U. lia.
  - apply Forall_forall. intros i H. apply in_map_iff in H.
    destruct H as (k & <- & H). apply in_seq in H.
    rewrite length_firstn, length_skipn.
    pose proof (Nat.div_mod_eq (List.length projects + 10 - 1) 10) as D.
    pose proof (Nat.mod_upper_bound (List.length projects + 10 - 1) 10) as U. lia.
Qed.

Lemma nth_error_set_state (id id' : nat) (st : tstate) (l : list thread) :
  nth_error (set_state id st l) id' =
  if (id' =? id)%nat
  then option_map (fun p => {| p_match := p_match p; p_section := p_section p;
                               p_state := st |}) (nth_error l id')
  else nth_error l id'.
Proof.
  revert id id'. induction l as [| p l IH]; intros id id'.
  - destruct id, id'; cbn; try reflexivity. now destruct (id' =? id)%nat.
  - destruct id as [| id], id' as [| id']; cbn; try reflexivity. apply IH.
Qed.

Lemma length_set_state (id : nat) (st : tstate) (l : list thread) :
  List.length (set_state id st l) = List.length l.
Proof.
  revert id. induction l as [| p l IH]; intros [| id]; cbn; auto.
Qed.

(** What [is_alive] comes to. *)
Lemma is_alive_spec (sched : schedule) (id : nat) (s : mstate) :
  match nth_error (pool s) id with
  | None => is_alive sched id s = (Raised NoSuchObject, s)
  | Some p =>
      if match p_state p with Running => negb (sched (rounds s) id) | _ => false end
      then is_alive sched id s = (Normal true, s)
      else is_alive sched id s =
           (Normal false,
            match p_state p with
            | Running => {| pool := set_state id Finished (pool s);
                            rounds := rounds s; mlog := mlog s |}
            | _ => s
            end)
  end.
Proof.
  unfold is_alive. destruct (nth_error (pool s) id) as [p |]; [| reflexivity].
  destruct (p_state p); cbn; try reflexivity.
  destruct (sched (rounds s) id); reflexivity.
Qed.

(** [is_alive] keeps the threads that are settled settled, and settles
    the one it finds ended. *)
Lemma is_alive_settles (sched : schedule) (id : nat) (s s' : mstate) (a : bool) :
  is_alive sched id s = (Normal a, s') ->
  (forall id', settled s id' -> settled s' id')
  /\ (a = false -> settled s' id)
  /\ rounds s' = rounds s /\ mlog s' = mlog s.
Proof.
  pose proof (is_alive_spec sched id s) as H.
  destruct (nth_error (pool s) id) as [p |] eqn:E; [| rewrite H; discriminate].
  destruct (p_state p) eqn:S; cbn in H.
  - rewrite H. intros [= <- <-]. repeat split; auto.
    intros _. exists p. split; [exact E | congruence].
  - destruct (sched (rounds s) id); cbn in H; rewrite H; intros [= <- <-].
    + cbn [pool rounds mlog]. repeat split.
      * intros id' (q & Q & N). unfold settled. cbn [pool].
        rewrite nth_error_set_state. destruct (id' =? id)%nat eqn:I.
        -- apply Nat.eqb_eq in I. subst id'. rewrite Q. cbn. eexists.
           split; [reflexivity | discriminate].
        -- exists q. auto.
      * intros _. unfold settled. cbn [pool].
        rewrite nth_error_set_state, Nat.eqb_refl, E. cbn. eexists.
        split; [reflexivity | discriminate].
    + repeat split; auto. discriminate.
  - rewrite H. intros [= <- <-]. repeat split; auto.
    intros _. exists p. split; [exact E | congruence].
Qed.

Lemma all_not_alive_settles (sched : schedule) (batch : list nat) (s s' : mstate)
      (b : bool) :
  all_not_alive sched batch s = (Normal b, s') ->
  (forall id', settled s id' -> settled s' id')
  /\ (b = true -> Forall (settled s') batch)
  /\ rounds s' = rounds s /\ mlog s' = mlog s.
Proof.
  revert s. induction batch as [| p batch IH]; intros s; cbn [all_not_alive].
  - unfold mret. intros [= <- <-]. repeat split; auto.
  - unfold mbind. destruct (is_alive sched p s) as [[a | e |] s1] eqn:A;
      try discriminate.
    destruct (is_alive_settles sched p s s1 a A) as (K1 & S1 & R1 & G1).
    destruct a; cbn [negb].
    + unfold mret. intros [= <- <-]. repeat split; auto. discriminate.
    + intros H. destruct (IH s1 H) as (K2 & S2 & R2 & G2).
      split; [auto |]. split; [| split; congruence].
      intros B. constructor; auto.
Qed.

(** X15. The barrier. When the wait loop of a batch ends, no thread of
    the batch is running: each has been seen not alive by [is_alive],
    under every schedule. *)
Theorem wait_barrier (fuel : nat) (sched : schedule) (batch : list nat)
        (s s' : mstate) :
  wait fuel sched batch s = (Normal tt, s') ->
  Forall (settled s') batch.
Proof.
  revert s. induction fuel as [| fuel IH]; intros s; cbn [wait]; [discriminate |].
  unfold mbind, msleep, log, tick.
  match goal with |- context [all_not_alive sched batch ?t] =>
    destruct (all_not_alive sched batch t) as [[b | e |] s1] eqn:A
  end; try discriminate.
  destruct b.
  - unfold mret. intros [= <-].
    now apply (all_not_alive_settles sched batch _ s1 true A).
  - apply IH.
Qed.

Lemma wait_barrier_witness :
  Forall (settled (snd (wait 3 (fun t _ => (2 <=? t)%nat) [0; 1]
                             (snd (start_all [0; 1] (fresh_pool 3))))))
         [0; 1].
Proof.
  apply (wait_barrier 3 (fun t _ => (2 <=? t)%nat) [0; 1]
                      (snd (start_all [0; 1] (fresh_pool 3)))).
  reflexivity.
Defined.

(** A thread that is running and that the schedule never lets end keeps
    [all(...)] false; the pool keeps its size. *)
Lemma all_not_alive_stuck (sched : schedule) (id : nat) (p : thread) (batch : list nat)
      (s : mstate) :
  (forall t, sched t id = false) ->
  Forall (fun i => i < List.length (pool s)) batch ->
  nth_error (pool s) id = Some p -> p_state p = Running ->
  exists b s',
    all_not_alive sched batch s = (Normal b, s')
    /\ nth_error (pool s') id = Some p
    /\ List.length (pool s') = List.length (pool s)
    /\ (In id batch -> b = false).
Proof.
  intros never. revert s. induction batch as [| x batch IH]; intros s V E R.
  - exists true, s. cbn. repeat split; auto. intros [].
  - cbn [all_not_alive]. unfold mbind.
    pose proof (is_alive_spec sched x s) as A.
    inversion V as [| ? ? Vx Vb]; subst.
    destruct (nth_error (pool s) x) as [q |] eqn:Q;
      [| apply nth_error_None in Q; lia].
    destruct (match p_state q with
              | Running => negb (sched (rounds s) x)
              | _ => false
              end) eqn:C; rewrite A; cbn [negb].
    + exists false, s. unfold mret. repeat split; auto.
    + assert (X : x <> id).
      { intros ->. rewrite E in Q. injection Q as <-. rewrite R in C.
        now rewrite never in C. }
      match goal with |- context [all_not_alive sched batch ?t] =>
        destruct (IH t) as (b & s' & H1 & H2 & H3 & H4)
      end.
      * destruct (p_state q); cbn [pool]; rewrite ?length_set_state; exact Vb.
      * destruct (p_state q); cbn [pool]; try exact E.
        rewrite nth_error_set_state.
        replace (id =? x)%nat with false by (symmetry; apply Nat.eqb_neq; auto).
        exact E.
      * exact R.
      * exists b, s'. split; [exact H1 |]. split; [exact H2 |]. split.
        -- rewrite H3. destruct (p_state q); cbn [pool]; rewrite ?length_set_state;
             reflexivity.
        -- intros [I | I]; [contradiction | auto].
Qed.

(** X16. No timeout. When a thread of the batch is running and the
    schedule never lets it end, the wait loop does not end, however long
    it is given: the batch, and with it the module body, hangs. *)
Theorem wait_hangs (fuel : nat) (sched : schedule) (id : nat) (p : thread)
        (batch : list nat) (s : mstate) :
  (forall t, sched t id = false) ->
  In id batch ->
  Forall (fun i => i < List.length (pool s)) batch ->
  nth_error (pool s) id = Some p -> p_state p = Running ->
  fst (wait fuel sched batch s) = Hung.
Proof.
  intros never I. revert s. induction fuel as [| fuel IH]; intros s V E R;
    [reflexivity |].
  cbn [wait]. unfold mbind, msleep, log, tick.
  match goal with |- context [all_not_alive sched batch ?t] =>
    destruct (all_not_alive_stuck sched id p batch t never V E R)
      as (b & s' & H1 & H2 & H3 & H4)
  end.
  rewrite H1, (H4 I). apply IH; [| exact H2 | exact R].
  rewrite H3. exact V.
Qed.

Lemma wait_hangs_witness :
  fst (wait 1000 (fun _ id => negb (id =? 1)%nat) [0; 1; 2]
            (snd (start_all [0; 1; 2] (fresh_pool 3)))) = Hung.
Proof.
  apply (wait_hangs 1000 (fun _ id => negb (id =? 1)%nat) 1
                    {| p_match := item_A; p_section := ""; p_state := Running |}
                    [0; 1; 2] (snd (start_all [0; 1; 2] (fresh_pool 3)))).
  - reflexivity.
  - cbn. auto.
  - repeat constructor.
  - reflexivity.
  - reflexivity.
Defined.

(** The result list is made cell by cell, by [regs] in the state the
    list is read in, and reading changes nothing. *)
Lemma all_regs_spec (sched : schedule) (apis : nat -> api) (ids : list nat) (s : mstate) :
  Forall (fun id => id < List.length (pool s)) ids ->
  all_regs sched apis ids s =
  (Normal (map (fun id => match nth_error (pool s) id with
                          | Some p =>
                              match p_state p with
                              | Initial => None
                              | Running =>
                                  if sched (rounds s) id then stored (apis id) p else None
                              | Finished => stored (apis id) p
                              end
                          | None => None
                          end) ids), s).
Proof.
  induction ids as [| id ids IH]; intros V; [reflexivity |].
  inversion V as [| ? ? Vi Vs]; subst. cbn [all_regs map]. unfold mbind.
  unfold regs at 1.
  destruct (nth_error (pool s) id) as [p |] eqn:E;
    [| apply nth_error_None in E; lia].
  destruct (p_state p); rewrite (IH Vs); reflexivity.
Qed.

(** A stored row is the row of the entry the thread was made for. *)
Lemma stored_row (a : api) (p : thread) (r : row) :
  stored a p = Some r ->
  project r = Re.group (p_match p) 1
  /\ section r = p_section p
  /\ url r = Re.group (p_match p) 2
  /\ description r = Re.group (p_match p) 3.
Proof.
  unfold stored.
  destruct (fst (run a (p_match p) (p_section p) wstart)) as [r' | e] eqn:E;
    [| discriminate].
  intros H. injection H as <-.
  destruct (run_row a (p_match p) (p_section p) r' E) as (H1 & H2 & H3 & H4 & _).
  auto.
Qed.

(** X17. The result, [[p.regs for p in projects]], has one cell for each
    project, in the order of [projects], and reading it changes nothing.
    A cell that holds a row holds the row of the entry at its place: the
    name, url and description of that entry's line and its section, put
    there by a worker that was started. The cell of a thread that was
    never started is None; the cell of a thread that has ended holds what
    its worker stored, which is nothing when the worker raised; the cell
    of a thread not yet known to have ended holds that as soon as the
    worker has come to its end, polled or not. *)
Theorem result_in_order (sched : schedule) (apis : nat -> api) (ids : list nat)
        (s : mstate) :
  Forall (fun id => id < List.length (pool s)) ids ->
  exists rows,
    all_regs sched apis ids s = (Normal rows, s)
    /\ List.length rows = List.length ids
    /\ forall i id p,
        nth_error ids i = Some id ->
        nth_error (pool s) id = Some p ->
        exists cell,
          nth_error rows i = Some cell
          /\ (p_state p = Initial -> cell = None)
          /\ (p_state p = Finished -> cell = stored (apis id) p)
          /\ (p_state p = Running ->
              cell = if sched (rounds s) id then stored (apis id) p else None)
          /\ (forall r,
                 cell = Some r ->
                 p_state p <> Initial
                 /\ fst (run (apis id) (p_match p) (p_section p) wstart) = Done r
                 /\ project r = Re.group (p_match p) 1
                 /\ section r = p_section p
                 /\ url r = Re.group (p_match p) 2
                 /\ description r = Re.group (p_match p) 3).
Proof.
  intros V. eexists. split; [apply (all_regs_spec sched apis ids s V) |].
  split; [apply length_map |].
  intros i id p Hi Hp. rewrite nth_error_map, Hi. cbn [option_map]. rewrite Hp.
  eexists. split; [reflexivity |].
  assert (Sr : forall r, stored (apis id) p = Some r ->
                        fst (run (apis id) (p_match p) (p_section p) wstart) = Done r).
  { intros r. unfold stored.
    destruct (fst (run (apis id) (p_match p) (p_section p) wstart)); [| discriminate].
    intros H. now injection H as <-. }
  destruct (p_state p) eqn:St.
  - split; [reflexivity |]. split; [discriminate |]. split; [discriminate |].
    intros r H. discriminate.
  - split; [discriminate |]. split; [discriminate |]. split; [reflexivity |].
    intros r H. destruct (sched (rounds s) id); [| discriminate].
    split; [discriminate |]. split; [exact (Sr r H) |]. exact (stored_row _ _ _ H).
  - split; [discriminate |]. split; [reflexivity |]. split; [discriminate |].
    intros r H.
    split; [discriminate |]. split; [exact (Sr r H) |]. exact (stored_row _ _ _ H).
Qed.

Lemma result_in_order_witness :
  exists rows,
    all_regs (fun _ _ => false)
             (fun id _ => match id with
                          | 0 => Date "2024-03-01"
                          | _ => RateLimitExceeded Datetime 980
                          end)
             [0; 1; 2; 3]
             {| pool := [ {| p_match := item_A; p_section := "Python"; p_state := Finished |};
                          {| p_match := item_A; p_section := "Python"; p_state := Finished |};
                          {| p_match := item_B; p_section := "R"; p_state := Running |};
                          {| p_match := item_C; p_section := "R"; p_state := Finished |} ];
                rounds := 1; mlog := [] |}
    = (Normal rows,
       {| pool := [ {| p_match := item_A; p_section := "Python"; p_state := Finished |};
                    {| p_match := item_A; p_section := "Python"; p_state := Finished |};
                    {| p_match := item_B; p_section := "R"; p_state := Running |};
                    {| p_match := item_C; p_section := "R"; p_state := Finished |} ];
          rounds := 1; mlog := [] |})
    /\ List.length rows = 4
    /\ nth_error rows 0 =
       Some (Some {| project := "A"; section := "Python"; last_commit := "2024-03-01";
                     url := "https://github.com/a/a"; description := "first";
                     github := true; cran := false; repo := "a/a" |})
    /\ nth_error rows 1 = Some None.
Proof.
  destruct (result_in_order
              (fun _ _ => false)
              (fun id _ => match id with
                           | 0 => Date "2024-03-01"
                           | _ => RateLimitExceeded Datetime 980
                           end)
              [0; 1; 2; 3]
              {| pool := [ {| p_match := item_A; p_section := "Python"; p_state := Finished |};
                           {| p_match := item_A; p_section := "Python"; p_state := Finished |};
                           {| p_match := item_B; p_section := "R"; p_state := Running |};
                           {| p_match := item_C; p_section := "R"; p_state := Finished |} ];
                 rounds := 1; mlog := [] |})
    as (rows & E & L & C).
  - repeat constructor.
  - exists rows. split; [exact E |]. split; [exact L |]. split.
    + destruct (C 0 0 {| p_match := item_A; p_section := "Python"; p_state := Finished |}
                  eq_refl eq_refl) as (cell & N & _ & F & _).
      rewrite N, (F eq_refl). reflexivity.
    + destruct (C 1 1 {| p_match := item_A; p_section := "Python"; p_state := Finished |}
                  eq_refl eq_refl) as (cell & N & _ & F & _).
      rewrite N, (F eq_refl). reflexivity.
Defined.

Lemma firstn_seq (j a m : nat) : firstn j (seq a m) = seq a (Nat.min j m).
Proof.
  revert a m. induction j as [| j IH]; intros a m; [reflexivity |].
  destruct m as [| m]; [reflexivity |]. cbn. now rewrite IH.
Qed.

Lemma nth_error_set_range (st : tstate) (i j id : nat) (l : list thread) :
  nth_error (set_range st i j l) id =
  if ((i <=? id) && (id <? i + j))%nat
  then option_map (with_state st) (nth_error l id)
  else nth_error l id.
Proof.
  revert i l. induction j as [| j IH]; intros i l; cbn [set_range].
  - replace ((i <=? id) && (id <? i + 0))%nat with false; [reflexivity |].
    symmetry. apply andb_false_iff.
    destruct (Nat.leb_spec i id); [right; apply Nat.ltb_ge; lia | now left].
  - rewrite IH, nth_error_set_state.
    destruct (Nat.leb_spec i id), (Nat.leb_spec (S i) id),
      (Nat.ltb_spec id (S i + j)), (Nat.ltb_spec id (i + S j)),
      (Nat.eqb_spec id i); cbn; try lia; reflexivity.
Qed.

Lemma length_set_range (st : tstate) (i j : nat) (l : list thread) :
  List.length (set_range st i j l) = List.length l.
Proof.
  revert i l. induction j as [| j IH]; intros i l; cbn; [reflexivity |].
  now rewrite IH, length_set_state.
Qed.

(** Starting threads that have not been started. *)
Lemma start_all_fresh (i j : nat) (s : mstate) :
  (forall id, i <= id < i + j ->
              exists p, nth_error (pool s) id = Some p /\ p_state p = Initial) ->
  start_all (seq i j) s =
  (Normal tt, {| pool := set_range Running i j (pool s); rounds := rounds s;
                 mlog := (mlog s ++ map Started (seq i j))%list |}).
Proof.
  revert i s. induction j as [| j IH]; intros i s H; cbn [seq start_all set_range map].
  - unfold mret. rewrite app_nil_r. now destruct s.
  - unfold mbind, start. destruct (H i) as (p & E & I); [lia |].
    rewrite E, I. rewrite IH; cbn [pool rounds mlog].
    + now rewrite <- app_assoc.
    + intros id B. destruct (H id) as (q & Q & J); [lia |].
      exists q. rewrite nth_error_set_state.
      replace (id =? i)%nat with false by (symmetry; apply Nat.eqb_neq; lia). auto.
Qed.

(** Polling threads that are running and have all ended. *)
Lemma poll_prompt (sched : schedule) (i j : nat) (s : mstate) :
  (forall t id, sched t id = true) ->
  (forall id, i <= id < i + j ->
              exists p, nth_error (pool s) id = Some p /\ p_state p = Running) ->
  all_not_alive sched (seq i j) s =
  (Normal true, {| pool := set_range Finished i j (pool s); rounds := rounds s;
                   mlog := mlog s |}).
Proof.
  intros prompt. revert i s.
  induction j as [| j IH]; intros i s H; cbn [seq all_not_alive set_range].
  - unfold mret. now destruct s.
  - unfold mbind, is_alive. destruct (H i) as (p & E & I); [lia |].
    rewrite E, I, prompt. cbn [negb]. rewrite IH; cbn [pool rounds mlog].
    + reflexivity.
    + intros id B. destruct (H id) as (q & Q & J); [lia |].
      exists q. rewrite nth_error_set_state.
      replace (id =? i)%nat with false by (symmetry; apply Nat.eqb_neq; lia). auto.
Qed.

Lemma mbind_normal {A B : Type} (c : M A) (k : A -> M B) (s s' : mstate) (a : A) :
  c s = (Normal a, s') -> mbind c k s = k a s'.
Proof. intros H. unfold mbind. now rewrite H. Qed.

(** The wait loop over running threads that have all ended: one sleep. *)
Lemma wait_prompt (fuel : nat) (sched : schedule) (i j : nat) (s : mstate) :
  (forall t id, sched t id = true) ->
  (forall id, i <= id < i + j ->
              exists p, nth_error (pool s) id = Some p /\ p_state p = Running) ->
  wait (S fuel) sched (seq i j) s =
  (Normal tt, {| pool := set_range Finished i j (pool s); rounds := S (rounds s);
                 mlog := (mlog s ++ [Slept 1])%list |}).
Proof.
  intros prompt H. cbn [wait]. unfold msleep, log, tick.
  erewrite mbind_normal by reflexivity.
  erewrite mbind_normal by reflexivity.
  erewrite mbind_normal by (apply poll_prompt; [exact prompt | exact H]).
  reflexivity.
Qed.

Lemma pause (b : bool) (s : mstate) :
  (if b then msleep 2 else mret tt) s =
  (Normal tt, {| pool := pool s; rounds := rounds s;
                 mlog := (mlog s ++ if b then [Slept 2] else [])%list |}).
Proof.
  destruct b; unfold msleep, log, mret; [reflexivity |].
  rewrite app_nil_r. now destruct s.
Qed.

(** The batch loop from batch [a] on, over projects 0, ..., n - 1 of which
    those before the batch have ended and the others have not been
    started, when every worker ends within a second of its start. *)
Lemma batches_fresh (fuel : nat) (sched : schedule) (l0 : list thread) (c a : nat)
      (s : mstate) :
  (forall t id, sched t id = true) ->
  Forall (fun p => p_state p = Initial) l0 ->
  List.length (pool s) = List.length l0 ->
  (forall id, nth_error (pool s) id =
              if (id <? a * batch_size)%nat
              then option_map (with_state Finished) (nth_error l0 id)
              else nth_error l0 id) ->
  exists s',
    batches (S fuel) sched (seq 0 (List.length l0))
            (map (fun k => k * batch_size) (seq a c)) s = (Normal tt, s')
    /\ List.length (pool s') = List.length l0
    /\ (forall id, nth_error (pool s') id =
                   if (id <? (a + c) * batch_size)%nat
                   then option_map (with_state Finished) (nth_error l0 id)
                   else nth_error l0 id)
    /\ rounds s' = rounds s + c
    /\ mlog s' =
       (mlog s ++ flat_map (batch_log (List.length l0))
                           (map (fun k => k * batch_size) (seq a c)))%list.
Proof.
  intros prompt fresh. revert a s.
  induction c as [| c IH]; intros a s L N.
  - exists s. cbn. rewrite Nat.add_0_r, app_nil_r. auto.
  - cbn [seq map batches flat_map].
    rewrite skipn_seq, firstn_seq. cbn [Nat.add].
    set (n := List.length l0) in *.
    set (i := a * batch_size) in *.
    set (j := Nat.min batch_size (n - i)).
    assert (I0 : forall id, i <= id < i + j ->
                            exists p, nth_error l0 id = Some p /\ p_state p = Initial).
    { intros id B. destruct (nth_error l0 id) as [p |] eqn:E.
      - exists p. split; [reflexivity |].
        rewrite Forall_forall in fresh. apply fresh. eapply nth_error_In; eauto.
      - apply nth_error_None in E. unfold j in B. fold n in E. lia. }
    erewrite mbind_normal.
    2:{ apply start_all_fresh. intros id B. destruct (I0 id B) as (p & E & I).
        exists p. rewrite N.
        replace (id <? i)%nat with false by (symmetry; apply Nat.ltb_ge; lia). auto. }
    erewrite mbind_normal.
    2:{ apply wait_prompt; [exact prompt |]. cbn [pool].
        intros id B. destruct (I0 id B) as (p & E & I).
        exists (with_state Running p). rewrite nth_error_set_range, N.
        replace ((i <=? id) && (id <? i + j))%nat with true
          by (symmetry; apply andb_true_iff; split;
              [apply Nat.leb_le | apply Nat.ltb_lt]; lia).
        replace (id <? i)%nat with false by (symmetry; apply Nat.ltb_ge; lia).
        rewrite E. auto. }
    erewrite mbind_normal by apply pause.
    cbn [pool rounds mlog]. rewrite length_seq. fold n.
    match goal with |- context [batches _ _ _ _ ?t] =>
      destruct (IH (S a) t) as (s' & B & L' & N' & R' & G')
    end.
    + cbn [pool]. now rewrite !length_set_range.
    + intros id. cbn [pool]. rewrite !nth_error_set_range, N.
      change (S a * batch_size) with (batch_size + a * batch_size). fold i.
      destruct (Nat.leb_spec i id), (Nat.ltb_spec id (i + j)), (Nat.ltb_spec id i),
        (Nat.ltb_spec id (batch_size + i)); cbn; try lia; try reflexivity.
      * destruct (nth_error l0 id) as [p |]; reflexivity.
      * destruct (nth_error l0 id) as [p |] eqn:E; [| reflexivity].
        assert (X : id < List.length l0) by (apply nth_error_Some; congruence).
        fold n in X. unfold j in *. lia.
    + exists s'. split; [exact B |]. split; [exact L' |]. split.
      * intros id. rewrite N'. now rewrite Nat.add_succ_r.
      * cbn [rounds mlog] in R', G'. split; [lia |].
        rewrite G'. unfold batch_log at 2. fold i. fold j.
        now rewrite <- !app_assoc.
Qed.

(** X18. The batch loop and the result on threads that have not been
    started, which is how the batch loop expects them and not how the
    parse loop leaves them, when every worker ends within a second of its
    start: the loop ends normally with every thread ended; batch by batch
    the main thread starts the threads of the batch in order, sleeps one
    second in the wait loop and, when another batch follows, two seconds
    more; and the result then has at index i what worker i stored, for
    every project: its row, or None when the worker raised. *)
Theorem batch_loop_on_fresh_pool (fuel : nat) (sched : schedule) (apis : nat -> api)
        (s : mstate) :
  0 < fuel ->
  (forall t id, sched t id = true) ->
  Forall (fun p => p_state p = Initial) (pool s) ->
  let n := List.length (pool s) in
  exists s' rows,
    batches fuel sched (seq 0 n) (range_step n batch_size) s = (Normal tt, s')
    /\ pool s' = map (with_state Finished) (pool s)
    /\ mlog s' = (mlog s ++ flat_map (batch_log n) (range_step n batch_size))%list
    /\ all_regs sched apis (seq 0 n) s' = (Normal rows, s')
    /\ List.length rows = n
    /\ forall id p,
        nth_error (pool s) id = Some p ->
        nth_error rows id = Some (stored (apis id) p).
Proof.
  intros F prompt fresh n. destruct fuel as [| fuel]; [lia |].
  destruct (batches_fresh fuel sched (pool s) ((n + batch_size - 1) / batch_size) 0 s
              prompt fresh eq_refl) as (s' & B & L & N & _ & G).
  { intros id. reflexivity. }
  fold n in B, L, G.
  assert (P : pool s' = map (with_state Finished) (pool s)).
  { apply nth_error_ext. intros id. rewrite N, nth_error_map. cbn [Nat.add].
    destruct (Nat.ltb_spec id ((n + batch_size - 1) / batch_size * batch_size));
      [reflexivity |].
    assert (X : n <= id).
    { pose proof (Nat.div_mod_eq (n + batch_size - 1) batch_size) as D.
      pose proof (Nat.mod_upper_bound (n + batch_size - 1) batch_size) as U.
      unfold batch_size in *. lia. }
    assert (E : nth_error (pool s) id = None) by (apply nth_error_None; exact X).
    rewrite E. reflexivity. }
  assert (V : Forall (fun id => id < List.length (pool s')) (seq 0 n)).
  { apply Forall_forall. intros id H. apply in_seq in H. rewrite L. lia. }
  eexists s', _.
  split; [exact B |]. split; [exact P |]. split; [exact G |]. split.
  { apply (all_regs_spec sched apis (seq 0 n) s' V). }
  split; [now rewrite length_map, length_seq |].
  intros id p E.
  assert (X : id < n) by (apply nth_error_Some; congruence).
  rewrite nth_error_map, nth_error_seq.
  replace (id <? n)%nat with true by (symmetry; apply Nat.ltb_lt; exact X).
  cbn [option_map Nat.add]. rewrite P, nth_error_map, E. reflexivity.
Qed.

Lemma batch_loop_on_fresh_pool_witness :
  exists s' rows,
    batches 1 (fun _ _ => true) (seq 0 11) (range_step 11 batch_size) (fresh_pool 11)
    = (Normal tt, s')
    /\ mlog s' = (map Started (seq 0 10) ++ [Slept 1; Slept 2; Started 10; Slept 1])%list
    /\ all_regs (fun _ _ => true) (fun _ _ => Date "2024-03-01") (seq 0 11) s'
       = (Normal rows, s')
    /\ List.length rows = 11.
Proof.
  destruct (batch_loop_on_fresh_pool 1 (fun _ _ => true) (fun _ _ => Date "2024-03-01")
              (fresh_pool 11)) as (s' & rows & B & _ & G & R & L & _).
  - lia.
  - reflexivity.
  - repeat constructor.
  - exists s', rows. split; [exact B |]. split; [exact G |]. split; [exact R | exact L].
Defined.
